(** * Workflow network: graph model, edge routing and execution engine

    Shallow embedding of [repoa.components.network_handler]
    ([constants.py], [node.py], [edge.py], [workflow_network.py],
    [execution_engine.py]) and the properties of its specification.

    Conventions of the embedding.
    - A Python value is a [pyval]; a [StateDict] ([Dict[str, Any]]) is a
      finite map from strings to values.  [dict.copy()] is the identity on
      this representation, [dict.update] is a right-biased union.
    - Node functions and edge conditions are user callables.  They may read
      and change the world outside the engine and they may raise, so they
      are functions [StateDict -> W -> result _ * W] for an arbitrary type
      [W] of outside worlds.  [Exc e] stands for a raised instance of
      [Exception], of class [exn_class e] and with [str()] equal to
      [str e]; signals outside the [Exception] hierarchy
      ([KeyboardInterrupt], [SystemExit]) are not modelled.
      Callables respect the documented contract and do not mutate the state
      mapping they are given.
    - Wall-clock fields ([timestamp], [duration_ms], [total_duration_ms])
      and inert metadata ([description], [timeout], [retry_count],
      [is_agent], [func_name], [condition_name], [graph_id]) are left out.
    - Fields marked "ghost" are not program variables: they log what the
      loop did (which callables were invoked, which nodes were visited, why
      the loop stopped) so that statements can talk about it. *)

From Stdlib Require Import ZArith Lia.
From stdpp Require Import base option list strings gmap.

Set Warnings "-register-all".

Open Scope string_scope.
Open Scope list_scope.

(** ** Values and outcomes *)

Inductive pyval : Type :=
| VNone
| VBool (b : bool)
| VInt (n : Z)
| VStr (s : string)
| VList (l : list pyval)
| VDict (d : gmap string pyval).

Abbreviation StateDict := (gmap string pyval).

(** A raised exception: its class and its [str()]. *)
Record exn : Type := mkExn {
  exn_class : string;
  str : string;
}.

Definition RuntimeError (msg : string) : exn := mkExn "RuntimeError" msg.
Definition ValueError (msg : string) : exn := mkExn "ValueError" msg.

(** Outcome of calling Python code: a returned value or a raised exception. *)
Inductive result (A : Type) : Type :=
| Ok (a : A)
| Exc (e : exn).
Arguments Ok {A} a.
Arguments Exc {A} e.

Definition is_ok {A} (r : result A) : bool :=
  match r with Ok _ => true | Exc _ => false end.

(** [constants.py] *)
Definition START : string := "__start__".
Definition END : string := "__end__".
Definition MAX_ITERATIONS : Z := 1000.

(** Truthiness of a [str]: the empty string is falsy. *)
Definition str_truthy (s : string) : bool := negb (String.eqb s "").

(** Truthiness of an [Optional[str]]: [None] and the empty string are falsy. *)
Definition truthy (o : option string) : bool :=
  match o with
  | Some s => str_truthy s
  | None => false
  end.

(** [current_state.update(updates)]: keys of [updates] overwrite. *)
Definition dict_update (state updates : StateDict) : StateDict :=
  updates ∪ state.

(** [if updates:] on a dict: the empty dict is falsy. *)
Definition dict_truthy (d : StateDict) : bool :=
  negb (bool_decide (d = ∅)).

Section Engine.

Variable W : Type.

(** ** node.py *)

Definition NodeFunction : Type := StateDict -> W -> result pyval * W.

Record Node : Type := mkNode {
  node_id : string;
  func : option NodeFunction;
}.

(** [Node.__call__] *)
Definition Node_call (node : Node) (state : StateDict) (w : W)
  : result StateDict * W :=
  match func node with
  | None => (Ok ∅, w)
  | Some f =>
      match f state w with
      | (Ok VNone, w') => (Ok ∅, w')
      | (Ok (VDict d), w') => (Ok d, w')
      | (Ok v, w') => (Ok {["result" := v]}, w')
      | (Exc e, w') => (Exc e, w')
      end
  end.

(** ** edge.py *)

Definition EdgeCondition : Type := StateDict -> W -> result string * W.

Record Edge : Type := mkEdge {
  source_node : string;
  target_node : option string;
  condition : option EdgeCondition;
  is_conditional : bool;
}.

(** [Edge.__init__]: [is_conditional = condition is not None]. *)
Definition Edge_init (source : string) (target : option string)
    (cond : option EdgeCondition) : Edge :=
  mkEdge source target cond (if cond is Some _ then true else false).

(** [Edge.route] *)
Definition route (e : Edge) (state : StateDict) (w : W) : result string * W :=
  match condition e with
  | Some c => c state w
  | None =>
      match target_node e with
      | Some t =>
          if str_truthy t then (Ok t, w)
          else (Exc (RuntimeError
                 ("Edge from " +:+ source_node e +:+ " has no routing target")), w)
      | None =>
          (Exc (RuntimeError
                 ("Edge from " +:+ source_node e +:+ " has no routing target")), w)
      end
  end.

(** [EdgeSet]: the list [edges], in insertion order. *)
Definition EdgeSet : Type := list Edge.

Definition EdgeSet_add_edge (es : EdgeSet) (e : Edge) : EdgeSet := es ++ [e].

Definition get_edges_from (es : EdgeSet) (source : string) : list Edge :=
  List.filter (fun e => String.eqb (source_node e) source) es.

(** The test of the second loop of [get_next_node]. *)
Definition is_static_target (e : Edge) : bool :=
  negb (is_conditional e) && truthy (target_node e).

(** [EdgeSet.get_next_node]; each [for ... return] loop is a [find]. *)
Definition get_next_node (es : EdgeSet) (source : string) (state : StateDict)
    (w : W) : result (option string) * W :=
  match get_edges_from es source with
  | [] => (Ok None, w)
  | edges =>
      match List.find is_conditional edges with
      | Some edge =>
          match route edge state w with
          | (Ok t, w') => (Ok (Some t), w')
          | (Exc e, w') => (Exc e, w')
          end
      | None =>
          match List.find is_static_target edges with
          | Some edge => (Ok (target_node edge), w)
          | None => (Ok None, w)
          end
      end
  end.

(** ** workflow_network.py *)

Record WorkflowNetwork : Type := mkNetwork {
  nodes : gmap string Node;
  edges : EdgeSet;
  entry_node : string;
  exit_node : string;
}.

(** [WorkflowNetwork()] with the field defaults. *)
Definition WorkflowNetwork_init : WorkflowNetwork :=
  mkNetwork ∅ [] START END.

Definition add_node (net : WorkflowNetwork) (id : string) (f : NodeFunction)
  : WorkflowNetwork :=
  mkNetwork (<[id := mkNode id (Some f)]> (nodes net)) (edges net)
            (entry_node net) (exit_node net).

Definition add_edge (net : WorkflowNetwork) (source target : string)
  : WorkflowNetwork :=
  mkNetwork (nodes net)
            (EdgeSet_add_edge (edges net) (Edge_init source (Some target) None))
            (entry_node net) (exit_node net).

(** The closure [routed_condition] of [add_conditional_edge]. *)
Definition routed_condition (cond : EdgeCondition)
    (target_map : gmap string string) : EdgeCondition :=
  fun state w =>
    match cond state w with
    | (Ok r, w') =>
        (Ok (default (default END (target_map !! "default")) (target_map !! r)),
         w')
    | (Exc e, w') => (Exc e, w')
    end.

Definition add_conditional_edge (net : WorkflowNetwork) (source : string)
    (cond : EdgeCondition) (target_map : gmap string string)
  : WorkflowNetwork :=
  mkNetwork (nodes net)
            (EdgeSet_add_edge (edges net)
               (Edge_init source None (Some (routed_condition cond target_map))))
            (entry_node net) (exit_node net).

Definition set_entry_point (net : WorkflowNetwork) (id : string)
  : WorkflowNetwork :=
  mkNetwork (nodes net) (edges net) id (exit_node net).

Definition set_finish_point (net : WorkflowNetwork) (id : string)
  : WorkflowNetwork :=
  mkNetwork (nodes net) (edges net) (entry_node net) id.

(** [list(self.nodes.keys())] *)
Definition node_keys (net : WorkflowNetwork) : list string :=
  (map_to_list (nodes net)).*1.

(** [x not in [sentinel] + list(self.nodes.keys())] *)
Definition not_found (net : WorkflowNetwork) (sentinel x : string) : bool :=
  negb (bool_decide (x ∈ sentinel :: node_keys net)).

(** The checks [validate] makes on one edge: [None] when both pass. *)
Definition check_edge (net : WorkflowNetwork) (e : Edge) : option exn :=
  if not_found net START (source_node e) then
    Some (ValueError ("Edge source " +:+ source_node e +:+ " not found"))
  else
    match target_node e with
    | Some t =>
        if str_truthy t && not_found net END t then
          Some (ValueError ("Edge target " +:+ t +:+ " not found"))
        else None
    | None => None
    end.

(** The [for edge in self.edges.edges] loop of [validate]. *)
Fixpoint validate_edges (net : WorkflowNetwork) (es : list Edge)
  : result bool :=
  match es with
  | [] => Ok true
  | e :: es' =>
      match check_edge net e with
      | Some err => Exc err
      | None => validate_edges net es'
      end
  end.

(** [WorkflowNetwork.validate] *)
Definition validate (net : WorkflowNetwork) : result bool :=
  if not_found net START (entry_node net) then
    Exc (ValueError ("Entry point " +:+ entry_node net +:+ " not found"))
  else if not_found net END (exit_node net) then
    Exc (ValueError ("Exit point " +:+ exit_node net +:+ " not found"))
  else validate_edges net (edges net).

(** [ExecutionEngine]: holds the network; [__init__] validates it. *)
Record ExecutionEngine : Type := mkEngine {
  engine_network : WorkflowNetwork;
}.

Definition ExecutionEngine_init (net : WorkflowNetwork)
  : result ExecutionEngine :=
  match validate net with
  | Ok _ => Ok (mkEngine net)
  | Exc e => Exc e
  end.

Record CompiledWorkflow : Type := mkCompiled {
  network : WorkflowNetwork;
  engine : option ExecutionEngine;
}.

Definition CompiledWorkflow_init (net : WorkflowNetwork)
  : result CompiledWorkflow :=
  match ExecutionEngine_init net with
  | Ok eng => Ok (mkCompiled net (Some eng))
  | Exc e => Exc e
  end.

(** [WorkflowNetwork.compile] *)
Definition compile (net : WorkflowNetwork) : result CompiledWorkflow :=
  match validate net with
  | Ok _ => CompiledWorkflow_init net
  | Exc e => Exc e
  end.

(** ** execution_engine.py *)

Record ExecutionStep : Type := mkStep {
  step_node_id : string;
  state_before : option StateDict;
  state_after : option StateDict;
  step_error : option string;
}.

Record ExecutionResult : Type := mkResult {
  final_state : StateDict;
  result_steps : list ExecutionStep;
  iterations : nat;
  error : option string;
  completed : bool;
}.

(** Why a traversal loop stopped (ghost). *)
Inductive halt : Type :=
| ReachedExit                 (* [current_node == exit_node] *)
| BudgetExhausted             (* [iteration < max_iterations] failed *)
| NoNextNode                  (* [break]: routing gave no next node *)
| Raised (e : exn).           (* an exception left the loop *)

(** The local variables of [execute], and two ghost logs: [calls] lists the
    node callables invoked so far with their outcome, [visited] the values
    [current_node] has taken. *)
Record Locals : Type := mkLocals {
  current_state : StateDict;
  steps : list ExecutionStep;
  current_node : string;
  iteration : nat;
  calls : list (string * result StateDict);
  visited : list string;
}.

Definition tick (l : Locals) : Locals :=
  mkLocals (current_state l) (steps l) (current_node l) (S (iteration l))
           (calls l) (visited l).

Definition goto (l : Locals) (next : string) : Locals :=
  mkLocals (current_state l) (steps l) next (iteration l)
           (calls l) (visited l ++ [next]).

(** The block [if current_node in self.network.nodes: ...] of [execute].
    When the call raises, the block is left by the [raise] of its handler:
    the outcome is then the exception raised together with the step as
    the handler left it, which was not appended to [steps]. *)
Definition execute_node (net : WorkflowNetwork) (l : Locals) (w : W)
  : (Locals * option (exn * ExecutionStep)) * W :=
  match nodes net !! current_node l with
  | None => (l, None, w)
  | Some node =>
      let step := mkStep (current_node l) (Some (current_state l)) None None in
      match Node_call node (current_state l) w with
      | (Ok updates, w') =>
          let state' :=
            if dict_truthy updates then dict_update (current_state l) updates
            else current_state l in
          let step := mkStep (step_node_id step) (state_before step)
                             (Some state') (step_error step) in
          (mkLocals state' (steps l ++ [step]) (current_node l) (iteration l)
                    (calls l ++ [(current_node l, Ok updates)]) (visited l),
           None, w')
      | (Exc e, w') =>
          let step := mkStep (step_node_id step) (state_before step)
                             (state_after step) (Some (str e)) in
          (mkLocals (current_state l) (steps l) (current_node l) (iteration l)
                    (calls l ++ [(current_node l, Exc e)]) (visited l),
           Some (RuntimeError
                   ("Node " +:+ current_node l +:+ " failed: " +:+ str e),
                 step),
           w')
      end
  end.

(** The [while] loop of [execute].  [budget] is the number of iterations
    the test [iteration < max_iterations] still allows, so the loop test
    fails on its second conjunct exactly when [budget] is [0]. *)
Fixpoint execute_loop (net : WorkflowNetwork) (budget : nat) (l : Locals)
    (w : W) : (Locals * halt) * W :=
  if String.eqb (current_node l) (exit_node net) then (l, ReachedExit, w)
  else
    match budget with
    | O => (l, BudgetExhausted, w)
    | S budget' =>
        let l := tick l in
        if String.eqb (current_node l) START then
          match get_next_node (edges net) START (current_state l) w with
          | (Ok next_node, w') =>
              match next_node with
              | Some n =>
                  if str_truthy n then execute_loop net budget' (goto l n) w'
                  else (l, NoNextNode, w')
              | None => (l, NoNextNode, w')
              end
          | (Exc e, w') => (l, Raised e, w')
          end
        else
          match execute_node net l w with
          | (l, Some (e, _), w') => (l, Raised e, w')
          | (l, None, w') =>
              match get_next_node (edges net) (current_node l)
                                  (current_state l) w' with
              | (Ok (Some n), w'') => execute_loop net budget' (goto l n) w''
              | (Ok None, w'') => (l, NoNextNode, w'')
              | (Exc e, w'') => (l, Raised e, w'')
              end
          end
    end.

(** [execute] up to the end of its loop, with the ghost information. *)
Definition execute_run (net : WorkflowNetwork) (initial_state : StateDict)
    (max_iterations : Z) (w : W) : (Locals * halt) * W :=
  execute_loop net (Z.to_nat max_iterations)
    (mkLocals initial_state [] (entry_node net) 0 [] [entry_node net]) w.

(** The two [return ExecutionResult(...)] of [execute]. *)
Definition make_result (net : WorkflowNetwork) (l : Locals) (h : halt)
  : ExecutionResult :=
  match h with
  | Raised e =>
      mkResult (current_state l) (steps l) (iteration l) (Some (str e)) false
  | _ =>
      mkResult (current_state l) (steps l) (iteration l) None
               (String.eqb (current_node l) (exit_node net))
  end.

(** [ExecutionEngine.execute] *)
Definition execute (net : WorkflowNetwork) (initial_state : StateDict)
    (max_iterations : Z) (w : W) : ExecutionResult * W :=
  let '(l, h, w') := execute_run net initial_state max_iterations w in
  (make_result net l h, w').

(** [CompiledWorkflow.invoke] *)
Definition invoke (net : WorkflowNetwork) (initial_state : StateDict)
    (max_iterations : Z) (w : W) : StateDict * W :=
  let '(r, w') := execute net initial_state max_iterations w in
  (final_state r, w').

(** What a consumer that drains the generator of [stream] observes: the
    yielded items in order, and, as ghost information, the locals
    [current_node] and [current_state] when the loop stopped and why it
    stopped ([Raised e]: the generator ended by raising [e]). *)
Record StreamRun : Type := mkStream {
  items : list (string * StateDict);
  stream_node : string;
  stream_state : StateDict;
  stream_halt : halt;
}.

Definition yield (item : string * StateDict) (r : StreamRun * W)
  : StreamRun * W :=
  (mkStream (item :: items (fst r)) (stream_node (fst r))
            (stream_state (fst r)) (stream_halt (fst r)), snd r).

Definition stop (cur : string) (state : StateDict) (h : halt) (w : W)
  : StreamRun * W :=
  (mkStream [] cur state h, w).

(** The block [if current_node in self.network.nodes: ...] of [stream]:
    the item it yields, if any, and the state after it. *)
Definition stream_node_step (net : WorkflowNetwork) (cur : string)
    (state : StateDict) (w : W)
  : (option (string * StateDict) * StateDict) * W :=
  match nodes net !! cur with
  | None => (None, state, w)
  | Some node =>
      match Node_call node state w with
      | (Ok updates, w') =>
          if dict_truthy updates
          then (Some (cur, updates), dict_update state updates, w')
          else (Some (cur, ∅), state, w')
      | (Exc e, w') => (Some (cur, {["error" := VStr (str e)]}), state, w')
      end
  end.

Definition yield_opt (item : option (string * StateDict))
    (r : StreamRun * W) : StreamRun * W :=
  match item with
  | Some i => yield i r
  | None => r
  end.

(** The [while] loop of [stream]. *)
Fixpoint stream_loop (net : WorkflowNetwork) (budget : nat) (cur : string)
    (state : StateDict) (w : W) : StreamRun * W :=
  if String.eqb cur (exit_node net) then stop cur state ReachedExit w
  else
    match budget with
    | O => stop cur state BudgetExhausted w
    | S budget' =>
        if String.eqb cur START then
          match get_next_node (edges net) START state w with
          | (Ok next_node, w') =>
              match next_node with
              | Some n =>
                  if str_truthy n then
                    yield (START, {["next_node" := VStr n]})
                          (stream_loop net budget' n state w')
                  else stop cur state NoNextNode w'
              | None => stop cur state NoNextNode w'
              end
          | (Exc e, w') => stop cur state (Raised e) w'
          end
        else
          let '(item, state', w') := stream_node_step net cur state w in
          yield_opt item
            match get_next_node (edges net) cur state' w' with
            | (Ok (Some n), w'') => stream_loop net budget' n state' w''
            | (Ok None, w'') => stop cur state' NoNextNode w''
            | (Exc e, w'') => stop cur state' (Raised e) w''
            end
    end.

(** [ExecutionEngine.stream]: the loop, then the final item when the loop
    stopped on the exit node. *)
Definition stream (net : WorkflowNetwork) (initial_state : StateDict)
    (max_iterations : Z) (w : W) : StreamRun * W :=
  let '(r, w') := stream_loop net (Z.to_nat max_iterations) (entry_node net)
                              initial_state w in
  if String.eqb (stream_node r) (exit_node net)
  then (mkStream (items r ++ [(exit_node net, stream_state r)])
                 (stream_node r) (stream_state r) (stream_halt r), w')
  else (r, w').

End Engine.

Arguments mkNode {W}.
Arguments node_id {W}.
Arguments func {W}.
Arguments mkEdge {W}.
Arguments source_node {W}.
Arguments target_node {W}.
Arguments condition {W}.
Arguments is_conditional {W}.
Arguments mkNetwork {W}.
Arguments nodes {W}.
Arguments edges {W}.
Arguments entry_node {W}.
Arguments exit_node {W}.
Arguments mkEngine {W}.
Arguments engine_network {W}.
Arguments mkCompiled {W}.
Arguments network {W}.
Arguments engine {W}.
Arguments Node_call {W}.
Arguments Edge_init {W}.
Arguments route {W}.
Arguments EdgeSet_add_edge {W}.
Arguments get_edges_from {W}.
Arguments is_static_target {W}.
Arguments get_next_node {W}.
Arguments WorkflowNetwork_init {W}.
Arguments add_node {W}.
Arguments add_edge {W}.
Arguments routed_condition {W}.
Arguments add_conditional_edge {W}.
Arguments set_entry_point {W}.
Arguments set_finish_point {W}.
Arguments node_keys {W}.
Arguments not_found {W}.
Arguments check_edge {W}.
Arguments validate_edges {W}.
Arguments validate {W}.
Arguments ExecutionEngine_init {W}.
Arguments CompiledWorkflow_init {W}.
Arguments compile {W}.
Arguments execute_node {W}.
Arguments execute_loop {W}.
Arguments execute_run {W}.
Arguments make_result {W}.
Arguments execute {W}.
Arguments invoke {W}.
Arguments yield {W}.
Arguments stop {W}.
Arguments stream_node_step {W}.
Arguments yield_opt {W}.
Arguments stream_loop {W}.
Arguments stream {W}.

(** ** Notions used by the statements *)

Section Notions.

Variable W : Type.
Implicit Types (net : WorkflowNetwork W) (e : Edge W) (es : EdgeSet W).

(** What [get_next_node] does with the outcome of [route]. *)
Definition some_target (r : result string * W) : result (option string) * W :=
  match r with
  | (Ok t, w') => (Ok (Some t), w')
  | (Exc x, w') => (Exc x, w')
  end.

(** The first static edge from [source], whatever its target. *)
Definition first_static_edge es (source : string) : option (Edge W) :=
  List.find (fun e => negb (is_conditional e)) (get_edges_from es source).

(** The referential invariant in the specification's words: an id is
    dangling when it is neither the relevant sentinel nor the id of a
    registered node. *)
Definition dangling net (sentinel x : string) : bool :=
  negb (String.eqb x sentinel) &&
  match nodes net !! x with Some _ => false | None => true end.

Inductive violation : Type :=
| BadEntry (id : string)
| BadExit (id : string)
| BadSource (id : string)
| BadTarget (id : string).

Definition offending_id (v : violation) : string :=
  match v with
  | BadEntry id | BadExit id | BadSource id | BadTarget id => id
  end.

Definition violation_message (v : violation) : string :=
  match v with
  | BadEntry id => "Entry point " +:+ id +:+ " not found"
  | BadExit id => "Exit point " +:+ id +:+ " not found"
  | BadSource id => "Edge source " +:+ id +:+ " not found"
  | BadTarget id => "Edge target " +:+ id +:+ " not found"
  end.

Definition edge_violations net e : list violation :=
  (if dangling net START (source_node e)
   then [BadSource (source_node e)] else []) ++
  match target_node e with
  | Some t => if str_truthy t && dangling net END t then [BadTarget t] else []
  | None => []
  end.

(** Every violation of the network, in the order [validate] looks for
    them: entry, exit, then each edge's source and target. *)
Definition violations net : list violation :=
  (if dangling net START (entry_node net)
   then [BadEntry (entry_node net)] else []) ++
  (if dangling net END (exit_node net)
   then [BadExit (exit_node net)] else []) ++
  flat_map (edge_violations net) (edges net).

Definition first_violation (vs : list violation) : result bool :=
  match vs with
  | [] => Ok true
  | v :: _ => Exc (ValueError (violation_message v))
  end.

(** The exception [execute] raises for a node whose callable raised [x]. *)
Definition node_failure (n : string) (x : exn) : exn :=
  RuntimeError ("Node " +:+ n +:+ " failed: " +:+ str x).

Definition ok_call (c : string * result StateDict) : Prop := is_ok c.2 = true.

Definition clean_step (s : ExecutionStep) : Prop := step_error s = None.

(** A callable is pure when its outcome is a function of its argument and
    it leaves the outside world as it found it. *)
Definition pure_callable {A B : Type} (f : A -> W -> result B * W) : Prop :=
  exists g, forall a w, f a w = (g a, w).

Definition pure_network net : Prop :=
  (forall id node f, nodes net !! id = Some node -> func node = Some f ->
                     pure_callable f) /\
  (forall e c, e ∈ edges net -> condition e = Some c -> pure_callable c).

(** A computation of the engine that neither reads nor writes the world. *)
Definition worldless {A : Type} (m : W -> A * W) : Prop :=
  exists a, forall w, m w = (a, w).

End Notions.

Arguments some_target {W}.
Arguments first_static_edge {W}.
Arguments dangling {W}.
Arguments edge_violations {W}.
Arguments violations {W}.
Arguments pure_callable {W A B}.
Arguments pure_network {W}.
Arguments worldless {W A}.

(** ** Concrete networks used as test inputs *)

Module Samples.

Section Generic.

Variable W : Type.

Definition returns (v : pyval) : NodeFunction W := fun _ w => (Ok v, w).

Definition raises (msg : string) : NodeFunction W :=
  fun _ w => (Exc (mkExn "Exception" msg), w).

Definition answers (key : string) : EdgeCondition W :=
  fun _ w => (Ok key, w).

Definition fails (msg : string) : EdgeCondition W :=
  fun _ w => (Exc (mkExn "KeyError" msg), w).

(** [START -> a -> END], [a] returns [{"x": 1}]. *)
Definition linear : WorkflowNetwork W :=
  add_edge (add_edge (add_node WorkflowNetwork_init
    "a" (returns (VDict {["x" := VInt 1]}))) START "a") "a" END.

(** [START -> a -> b -> END], [a] raises, [b] returns [{"b": 1}]. *)
Definition failing : WorkflowNetwork W :=
  add_edge (add_edge (add_edge
    (add_node (add_node WorkflowNetwork_init "a" (raises "boom"))
              "b" (returns (VDict {["b" := VInt 1]})))
    START "a") "a" "b") "b" END.

(** Nodes [a], [b]; [set_finish_point("b")]; [START -> a -> END]. *)
Definition finish_at_b : WorkflowNetwork W :=
  add_edge (add_edge (set_finish_point
    (add_node (add_node WorkflowNetwork_init "a" (returns VNone))
              "b" (returns VNone)) "b")
    START "a") "a" END.

(** [START -> a], nothing leaves [a]. *)
Definition dead_end : WorkflowNetwork W :=
  add_edge (add_node WorkflowNetwork_init "a" (returns VNone)) START "a".

(** Node [a]; [add_edge(START, "a")], [add_edge("a", "")]. *)
Definition empty_target : WorkflowNetwork W :=
  add_edge (add_edge (add_node WorkflowNetwork_init "a" (returns VNone))
                     START "a") "a" "".

(** Node [a]; the only edge is [Edge(source_node=START)], without target. *)
Definition start_without_target : WorkflowNetwork W :=
  mkNetwork {["a" := mkNode "a" (Some (returns VNone))]}
            (EdgeSet_add_edge [] (Edge_init START None None)) START END.

(** Node [a]; a conditional edge from [START] whose condition raises. *)
Definition start_condition_raises : WorkflowNetwork W :=
  add_conditional_edge (add_node WorkflowNetwork_init "a" (returns VNone))
    START (fails "kind") {["go" := "a"]}.

(** Nodes [__start__] and [a]; [set_finish_point("__start__")];
    [START -> a]. *)
Definition finish_at_start : WorkflowNetwork W :=
  add_edge (set_finish_point
    (add_node (add_node WorkflowNetwork_init START (returns VNone))
              "a" (returns VNone)) START)
    START "a".

(** The conditional-routing scenario: [check] stores the length of
    [input]; the condition answers ["short"] below five characters and
    ["long"] otherwise; each answer has its handler. *)
Definition check : NodeFunction W :=
  fun state w =>
    match state !! "input" with
    | Some (VStr s) =>
        (Ok (VDict {["length" := VInt (Z.of_nat (String.length s))]}), w)
    | _ => (Exc (mkExn "KeyError" "input"), w)
    end.

Definition by_length : EdgeCondition W :=
  fun state w =>
    match state !! "length" with
    | Some (VInt n) => (Ok (if (n <? 5)%Z then "short" else "long"), w)
    | _ => (Exc (mkExn "KeyError" "length"), w)
    end.

Definition routing : WorkflowNetwork W :=
  add_edge (add_edge
    (add_conditional_edge
       (add_edge
          (add_node (add_node (add_node WorkflowNetwork_init "check" check)
             "short_handler" (returns (VDict {["output" := VStr "Short: hi"]})))
             "long_handler" (returns (VDict {["output" := VStr "Long"]})))
          START "check")
       "check" by_length
       {["short" := "short_handler"; "long" := "long_handler"]})
    "short_handler" END) "long_handler" END.

(** Node [a]; [START -> a -> ghost -> END] where [ghost] is no node, and
    the entry point is set to [nowhere]. *)
Definition dangling_refs : WorkflowNetwork W :=
  set_entry_point
    (add_edge (add_edge (add_edge
       (add_node WorkflowNetwork_init "a" (returns VNone))
       START "a") "a" "ghost") "ghost" END)
    "nowhere".

(** [add_edge("a", "")] then [add_edge("a", "b")]. *)
Definition two_static : EdgeSet W :=
  edges (add_edge (add_edge WorkflowNetwork_init "a" "") "a" "b").

(** A static edge from [a], then two conditional edges from [a]. *)
Definition mixed : EdgeSet W :=
  [Edge_init "a" (Some "b") None;
   Edge_init "a" None (Some (answers "c"));
   Edge_init "a" None (Some (answers "d"))].

End Generic.

(** A callable that reads and bumps a counter kept outside the engine. *)
Definition counter : NodeFunction nat :=
  fun _ w => (Ok (VDict {["n" := VInt (Z.of_nat w)]}), S w).

Definition counting : WorkflowNetwork nat :=
  add_edge (add_edge (add_node WorkflowNetwork_init "a" counter) START "a")
           "a" END.

End Samples.

(** ** network_state.py *)

(** [NetworkState] with [state_data] a [StateDict]; the branches of
    [update] and [to_dict] for a Pydantic model as [state_data] are not
    part of the embedding. *)
Record NetworkState : Type := mkNetworkState {
  ns_current_node : string;
  state_data : StateDict;
  history : list string;
  metadata : StateDict;
}.

(** [NetworkState()] with the field defaults. *)
Definition NetworkState_init : NetworkState := mkNetworkState "" ∅ [] ∅.

(** [NetworkState.update]: [{**self.state_data, **updates}] in a new
    instance, the other fields copied. *)
Definition NetworkState_update (s : NetworkState) (updates : StateDict)
  : NetworkState :=
  mkNetworkState (ns_current_node s) (updates ∪ state_data s)
                 (history s) (metadata s).

(** [NetworkState.record_execution] mutates [self]; the result is the
    instance after the call. *)
Definition record_execution (s : NetworkState) (node_id : string)
  : NetworkState :=
  mkNetworkState node_id (state_data s) (history s ++ [node_id]) (metadata s).

(** [NetworkState.to_dict] *)
Definition NetworkState_to_dict (s : NetworkState) : StateDict := state_data s.

(** A use of a [NetworkState]: one of its two operations. *)
Inductive ns_op : Type :=
| OpUpdate (updates : StateDict)
| OpRecord (node_id : string).

Definition apply_op (s : NetworkState) (op : ns_op) : NetworkState :=
  match op with
  | OpUpdate updates => NetworkState_update s updates
  | OpRecord node_id => record_execution s node_id
  end.

Definition recorded (ops : list ns_op) : list string :=
  omap (fun op => match op with OpRecord n => Some n | OpUpdate _ => None end)
       ops.

Definition merged (ops : list ns_op) : StateDict :=
  foldl (fun state op =>
           match op with
           | OpUpdate u => dict_update state u
           | OpRecord _ => state
           end) ∅ ops.

(** ** Further notions *)

(** A sequence of steps leading from one state to another: each step
    starts in the state the previous one ended in. *)
Fixpoint chained (first : StateDict) (ss : list ExecutionStep)
    (last : StateDict) : Prop :=
  match ss with
  | [] => first = last
  | s :: ss' =>
      state_before s = Some first /\
      exists next, state_after s = Some next /\ chained next ss' last
  end.

(** The effect of one logged call on the state: the updates of a call
    that returned are merged, a call that raised changes nothing. *)
Definition merge_call (state : StateDict) (c : string * result StateDict)
  : StateDict :=
  match c.2 with
  | Ok updates => dict_update state updates
  | Exc _ => state
  end.

Section MoreNotions.

Variable W : Type.
Implicit Types (net : WorkflowNetwork W) (e : Edge W).

(** An id the traversal may legitimately stand on. *)
Definition known_node net (n : string) : Prop :=
  n = START \/ n = END \/ is_Some (nodes net !! n).

(** The referential invariant of a network, as a proposition. *)
Definition well_formed net : Prop :=
  dangling net START (entry_node net) = false /\
  dangling net END (exit_node net) = false /\
  forall e, e ∈ edges net ->
    dangling net START (source_node e) = false /\
    forall t, target_node e = Some t -> str_truthy t = true ->
              dangling net END t = false.

(** The network with one more edge, however the edge was built. *)
Definition with_edge net e : WorkflowNetwork W :=
  mkNetwork (nodes net) (EdgeSet_add_edge (edges net) e)
            (entry_node net) (exit_node net).

End MoreNotions.

Arguments known_node {W}.
Arguments well_formed {W}.
Arguments with_edge {W}.

(** More test inputs. *)
Module Cases.

Section Generic.

Variable W : Type.

(** [START -> a -> b -> END]; [a] returns [{"x": 1}], [b] returns
    [{"x": 2, "y": 3}]. *)
Definition pipeline : WorkflowNetwork W :=
  add_edge (add_edge (add_edge
    (add_node (add_node WorkflowNetwork_init
       "a" (Samples.returns W (VDict {["x" := VInt 1]})))
       "b" (Samples.returns W (VDict {["x" := VInt 2; "y" := VInt 3]})))
    START "a") "a" "b") "b" END.

(** [START -> a -> a]: a loop on [a], which returns [None]. *)
Definition cycle : WorkflowNetwork W :=
  add_edge (add_edge (add_node WorkflowNetwork_init
    "a" (Samples.returns W VNone)) START "a") "a" "a".

(** A conditional edge from [a] whose condition raises, after a static
    edge from [a]. *)
Definition raising_route : EdgeSet W :=
  [Edge_init "a" (Some "b") None;
   Edge_init "a" None (Some (Samples.fails W "kind"))].

End Generic.

End Cases.

Ltac loop_step H :=
  match type of H with
  | context [match ?x with _ => _ end] => destruct x eqn:?
  | context [if ?b then _ else _] => destruct b eqn:?
  | (_, _, _) = (_, _, _) => inversion H; subst; clear H
  end.

(** * Properties *)

Section NodeProperties.

Variable W : Type.
Implicit Types (node : Node W) (state : StateDict) (w : W).

Lemma dict_truthy_singleton (k : string) (v : pyval) :
  dict_truthy {[k := v]} = true.
Proof.
  unfold dict_truthy. rewrite bool_decide_eq_false_2; [done|].
  apply insert_non_empty.
Qed.

Lemma dict_truthy_empty : dict_truthy ∅ = false.
Proof. unfold dict_truthy. by rewrite bool_decide_eq_true_2. Qed.

Lemma dict_update_singleton state (k : string) (v : pyval) :
  dict_update state {[k := v]} = <[k := v]> state.
Proof. unfold dict_update. by rewrite insert_union_singleton_l. Qed.

(** C10. [Node.__call__] returns the empty mapping when [func] is absent
    and when the callable returns [None]; a returned value that is neither
    [None] nor a dict comes back as [{"result": value}], and the engine's
    node block then stores it under the key ["result"] without raising.
    After a [None] return the engine leaves the state as it was. *)
Theorem Node_call_shapes node state w :
  (func node = None -> Node_call node state w = (Ok ∅, w)) /\
  (forall f w', func node = Some f -> f state w = (Ok VNone, w') ->
     Node_call node state w = (Ok ∅, w') /\
     forall net l, nodes net !! current_node l = Some node ->
       current_state l = state ->
       exists l', execute_node net l w = (l', None, w') /\
                  current_state l' = state) /\
  (forall f v w', func node = Some f -> f state w = (Ok v, w') ->
     v <> VNone -> (forall d, v <> VDict d) ->
     Node_call node state w = (Ok {["result" := v]}, w') /\
     forall net l, nodes net !! current_node l = Some node ->
       current_state l = state ->
       exists l', execute_node net l w = (l', None, w') /\
                  current_state l' = <["result" := v]> state).
Proof.
  split; [|split].
  - intros Hf. unfold Node_call. by rewrite Hf.
  - intros f w' Hf Hcall.
    assert (Hn : Node_call node state w = (Ok ∅, w')).
    { unfold Node_call. by rewrite Hf, Hcall. }
    split; [exact Hn|].
    intros net l Hlook Hst. unfold execute_node.
    rewrite Hlook, Hst, Hn, dict_truthy_empty. eauto.
  - intros f v w' Hf Hcall Hnone Hdict.
    assert (Hn : Node_call node state w = (Ok {["result" := v]}, w')).
    { unfold Node_call. rewrite Hf, Hcall.
      destruct v; try reflexivity; [done | by destruct (Hdict d)]. }
    split; [exact Hn|].
    intros net l Hlook Hst. unfold execute_node.
    rewrite Hlook, Hst, Hn, dict_truthy_singleton, dict_update_singleton.
    eauto.
Qed.

End NodeProperties.

Section RoutingProperties.

Variable W : Type.
Implicit Types (e : Edge W) (es : EdgeSet W) (state : StateDict) (w : W).

Lemma find_filter {A} (P Q : A -> bool) (l : list A) :
  List.find P (List.filter Q l) = List.find (fun x => Q x && P x) l.
Proof.
  induction l as [|a l IH]; simpl; [done|].
  destruct (Q a); simpl; [|exact IH].
  destruct (P a); [done | exact IH].
Qed.

Lemma find_first {A} (R : A -> bool) (pre post : list A) (a : A) :
  R a = true -> (forall x, x ∈ pre -> R x = false) ->
  List.find R (pre ++ a :: post) = Some a.
Proof.
  intros Ha. induction pre as [|x pre IH]; intros Hpre; simpl.
  - by rewrite Ha.
  - rewrite (Hpre x) by left. apply IH. intros y Hy. apply Hpre. by right.
Qed.

Lemma find_nowhere {A} (R : A -> bool) (l : list A) :
  (forall x, x ∈ l -> R x = false) -> List.find R l = None.
Proof.
  induction l as [|x l IH]; intros Hl; simpl; [done|].
  rewrite (Hl x) by left. apply IH. intros y Hy. apply Hl. by right.
Qed.

Lemma from_source_true e source :
  source_node e = source -> String.eqb (source_node e) source = true.
Proof. intros ->. apply String.eqb_refl. Qed.

Lemma from_source_and e source (P : Edge W -> bool) :
  String.eqb (source_node e) source && P e = false <->
  (source_node e = source -> P e = false).
Proof.
  destruct (String.eqb_spec (source_node e) source) as [Heq|Hne]; simpl.
  - tauto.
  - split; [intros _ H; by destruct Hne | done].
Qed.

(** When the edges from [source] hold no conditional edge, the first
    non-empty list case of [get_next_node] reduces to its second loop. *)
Lemma get_next_node_static es source state w :
  List.find is_conditional (get_edges_from es source) = None ->
  get_next_node es source state w =
  (Ok (List.find is_static_target (get_edges_from es source)
         ≫= target_node), w).
Proof.
  unfold get_next_node.
  destruct (get_edges_from es source) as [|e0 l]; [done|].
  intros ->. by destruct (List.find is_static_target (e0 :: l)).
Qed.

Lemma get_next_node_conditional es source state w e :
  List.find is_conditional (get_edges_from es source) = Some e ->
  get_next_node es source state w = some_target (route e state w).
Proof.
  unfold get_next_node.
  destruct (get_edges_from es source) as [|e0 l]; [done|].
  intros ->. unfold some_target. by destruct (route e state w) as [[t|x] w'].
Qed.

(** C3 (amended). Routing from [source]: the outcome of the first
    conditional edge from [source] in insertion order when there is one,
    whatever edges follow it; with no conditional edge from [source], the
    target of the first static edge from [source] whose target is
    non-empty; and no next node when [source] has no such edge, in
    particular when no edge leaves it. *)
Theorem get_next_node_policy es source state w :
  (forall pre e post,
     es = pre ++ e :: post ->
     source_node e = source -> is_conditional e = true ->
     (forall e', e' ∈ pre -> source_node e' = source ->
                 is_conditional e' = false) ->
     get_next_node es source state w = some_target (route e state w)) /\
  ((forall e, e ∈ es -> source_node e = source -> is_conditional e = false) ->
   (forall pre e post,
      es = pre ++ e :: post ->
      source_node e = source -> truthy (target_node e) = true ->
      (forall e', e' ∈ pre -> source_node e' = source ->
                  truthy (target_node e') = false) ->
      get_next_node es source state w = (Ok (target_node e), w)) /\
   ((forall e, e ∈ es -> source_node e = source ->
               truthy (target_node e) = false) ->
    get_next_node es source state w = (Ok None, w))).
Proof.
  split.
  - intros pre e post -> Hsrc Hcond Hpre.
    apply get_next_node_conditional.
    unfold get_edges_from. rewrite find_filter. apply find_first.
    + by rewrite from_source_true, Hcond.
    + intros x Hx. apply from_source_and. auto.
  - intros Hstatic.
    assert (Hnone : List.find is_conditional (get_edges_from es source) = None).
    { unfold get_edges_from. rewrite find_filter. apply find_nowhere.
      intros x Hx. apply from_source_and. auto. }
    split.
    + intros pre e post Hes Hsrc Htgt Hpre.
      rewrite get_next_node_static by exact Hnone.
      unfold get_edges_from. rewrite find_filter.
      rewrite Hes, (find_first _ pre post e); [done | |].
      * rewrite from_source_true by done. unfold is_static_target.
        rewrite Hstatic, Htgt; [done | | done].
        rewrite Hes. apply elem_of_app. right. left.
      * intros x Hx. apply from_source_and. intros Hx'.
        unfold is_static_target. rewrite (Hpre x Hx Hx').
        apply andb_false_r.
    + intros Hempty.
      rewrite get_next_node_static by exact Hnone.
      unfold get_edges_from. rewrite find_filter, find_nowhere; [done|].
      intros x Hx. apply from_source_and. intros Hx'.
      unfold is_static_target. rewrite (Hempty x Hx Hx').
      apply andb_false_r.
Qed.

(** C6. The edge registered by [add_conditional_edge] is appended to the
    edge set, is conditional, and resolves to [target_map[condition(state)]]
    when that key is present, else to [target_map["default"]] when present,
    else to [END]. *)
Theorem add_conditional_edge_resolves (net : WorkflowNetwork W)
    (source : string) (cond : EdgeCondition W)
    (target_map : gmap string string) state w (key : string) (w' : W) :
  cond state w = (Ok key, w') ->
  exists e,
    edges (add_conditional_edge net source cond target_map) = edges net ++ [e] /\
    source_node e = source /\ is_conditional e = true /\
    (forall t, target_map !! key = Some t -> route e state w = (Ok t, w')) /\
    (target_map !! key = None ->
       (forall t, target_map !! "default" = Some t ->
                  route e state w = (Ok t, w')) /\
       (target_map !! "default" = None -> route e state w = (Ok END, w'))).
Proof.
  intros Hcond.
  exists (Edge_init source None (Some (routed_condition cond target_map))).
  split; [done|]. split; [done|]. split; [done|].
  unfold route, routed_condition; simpl; rewrite Hcond.
  split; [intros t Ht; by rewrite Ht|].
  intros Hkey. rewrite Hkey.
  split; [intros t Ht; by rewrite Ht | intros Hd; by rewrite Hd].
Qed.

End RoutingProperties.


Section ValidationProperties.

Variable W : Type.
Implicit Types (net : WorkflowNetwork W) (e : Edge W).

Lemma elem_of_node_keys net (x : string) :
  x ∈ node_keys net <-> is_Some (nodes net !! x).
Proof.
  unfold node_keys. rewrite list_elem_of_fmap. split.
  - intros [[k n] [-> Hin]]. apply elem_of_map_to_list in Hin. simpl. eauto.
  - intros [n Hn]. exists (x, n). split; [done|].
    by apply elem_of_map_to_list.
Qed.

Lemma not_found_dangling net (sentinel x : string) :
  not_found net sentinel x = dangling net sentinel x.
Proof.
  unfold not_found, dangling.
  destruct (String.eqb_spec x sentinel) as [->|Hne]; simpl.
  - rewrite bool_decide_eq_true_2; [done | left].
  - destruct (nodes net !! x) as [n|] eqn:Hx.
    + rewrite bool_decide_eq_true_2; [done|].
      right. apply elem_of_node_keys. eauto.
    + rewrite bool_decide_eq_false_2; [done|].
      intros Hin. apply elem_of_cons in Hin as [?|Hin]; [done|].
      apply elem_of_node_keys in Hin as [n Hn]. congruence.
Qed.

Lemma check_edge_violations net e :
  check_edge net e =
  match edge_violations net e with
  | [] => None
  | v :: _ => Some (ValueError (violation_message v))
  end.
Proof.
  unfold check_edge, edge_violations. rewrite not_found_dangling.
  destruct (dangling net START (source_node e)); simpl; [done|].
  destruct (target_node e) as [t|]; [|done].
  rewrite not_found_dangling.
  by destruct (str_truthy t && dangling net END t).
Qed.

Lemma validate_edges_violations net (es : list (Edge W)) :
  validate_edges net es = first_violation (flat_map (edge_violations net) es).
Proof.
  induction es as [|e es IH]; simpl; [done|].
  rewrite check_edge_violations.
  destruct (edge_violations net e) as [|v vs]; simpl; [exact IH | done].
Qed.

Lemma violation_message_includes (v : violation) :
  exists pre post, violation_message v = pre +:+ offending_id v +:+ post.
Proof. destruct v; simpl; eauto. Qed.

(** C5 (amended). [validate] raises [ValueError] for the first violation
    in check order, with a message built around the offending id, and
    succeeds when there is none; an edge target that is the empty string
    counts as absent and is not checked.  [compile] raises the same error,
    and on a network without violation returns a [CompiledWorkflow] for
    that network. *)
Theorem validate_first_violation net :
  validate net = first_violation (violations net) /\
  match violations net with
  | [] => compile net = Ok (mkCompiled net (Some (mkEngine net)))
  | v :: _ =>
      compile net = Exc (ValueError (violation_message v)) /\
      exists pre post, violation_message v = pre +:+ offending_id v +:+ post
  end.
Proof.
  assert (Hv : validate net = first_violation (violations net)).
  { unfold validate, violations. rewrite !not_found_dangling.
    destruct (dangling net START (entry_node net)); simpl; [done|].
    destruct (dangling net END (exit_node net)); simpl; [done|].
    apply validate_edges_violations. }
  split; [exact Hv|].
  unfold compile, CompiledWorkflow_init, ExecutionEngine_init. rewrite Hv.
  destruct (violations net) as [|v vs]; simpl; [done|].
  split; [done | apply violation_message_includes].
Qed.

End ValidationProperties.


Section ExecuteProperties.

Variable W : Type.
Implicit Types (net : WorkflowNetwork W) (l : Locals) (w : W) (h : halt).

(** What the node block of [execute] does to the locals. *)
Lemma execute_node_spec net l w l' oe w' :
  execute_node net l w = (l', oe, w') ->
  current_node l' = current_node l /\ iteration l' = iteration l /\
  visited l' = visited l /\
  match oe with
  | None =>
      l' = l \/
      exists u, calls l' = calls l ++ [(current_node l, Ok u)] /\
        steps l' = steps l ++ [mkStep (current_node l) (Some (current_state l))
                                      (Some (current_state l')) None]
  | Some (e, step) =>
      exists x, calls l' = calls l ++ [(current_node l, Exc x)] /\
        e = node_failure (current_node l) x /\
        step = mkStep (current_node l) (Some (current_state l)) None
                      (Some (str x)) /\
        steps l' = steps l /\ current_state l' = current_state l
  end.
Proof.
  unfold execute_node. intros H.
  destruct (nodes net !! current_node l) as [node|].
  - destruct (Node_call node (current_state l) w) as [[u|x] w1];
      inversion H; subst; clear H; simpl; repeat split; eauto 10.
  - inversion H; subst. repeat split; eauto.
Qed.

(** Calls made by the loop: either none of them raised, or exactly the
    last one did and the loop was left with the matching error. *)
Lemma execute_loop_calls net budget : forall l w l' h w',
  execute_loop net budget l w = (l', h, w') ->
  Forall ok_call (calls l) ->
  Forall ok_call (calls l') \/
  exists pre n x, calls l' = pre ++ [(n, Exc x)] /\ Forall ok_call pre /\
                  h = Raised (node_failure n x).
Proof.
  induction budget as [|budget IH]; intros l w l' h w' H Hok; simpl in H.
  - repeat loop_step H; auto.
  - destruct (String.eqb (current_node l) (exit_node net));
      [inversion H; subst; auto|].
    destruct (String.eqb (current_node l) START).
    + repeat loop_step H; auto. eapply IH; eauto.
    + destruct (execute_node net (tick l) w) as [[l1 oe] w1] eqn:Hnode.
      apply execute_node_spec in Hnode as (Hcur & Hit & Hvis & Hcase).
      destruct oe as [[e step]|].
      * destruct Hcase as (x & Hcalls & -> & _). inversion H; subst.
        right. exists (calls l), (current_node l), x. auto.
      * assert (Hok1 : Forall ok_call (calls l1)).
        { destruct Hcase as [->|(u & Hcalls & _)]; [done|].
          rewrite Hcalls. apply Forall_app. split; [done|].
          by repeat constructor. }
        repeat loop_step H; auto. eapply IH; eauto.
Qed.

(** C1. If some node callable raises while [execute] runs, [execute] still
    returns an [ExecutionResult]; its [error] is the message built from the
    node id and the exception, [completed] is false, and the failing call
    is the last call made, all earlier ones having returned. *)
Theorem execute_node_failure_reported net (initial_state : StateDict)
    (max_iterations : Z) w (n : string) (x : exn) :
  (n, Exc x) ∈ calls (execute_run net initial_state max_iterations w).1.1 ->
  let r := (execute net initial_state max_iterations w).1 in
  error r = Some ("Node " +:+ n +:+ " failed: " +:+ str x) /\
  completed r = false /\
  exists pre,
    calls (execute_run net initial_state max_iterations w).1.1
      = pre ++ [(n, Exc x)] /\
    Forall ok_call pre.
Proof.
  unfold execute, execute_run.
  destruct (execute_loop _ _ _ _) as [[l h] w'] eqn:Hloop. simpl.
  intros Hin.
  apply execute_loop_calls in Hloop; [|by constructor].
  destruct Hloop as [Hall|(pre & n' & x' & Hc & Hpre & ->)].
  - rewrite Forall_forall in Hall. by apply Hall in Hin.
  - rewrite Hc in Hin. apply elem_of_app in Hin as [Hin|Hin].
    + rewrite Forall_forall in Hpre. by apply Hpre in Hin.
    + apply list_elem_of_singleton in Hin. inversion Hin; subst.
      simpl. eauto.
Qed.

(** The steps [execute] returns never carry an error, and there is one
    per call that returned: a call that raised leaves no step. *)
Lemma execute_loop_steps net budget : forall l w l' h w',
  execute_loop net budget l w = (l', h, w') ->
  Forall clean_step (steps l) ->
  step_node_id <$> steps l = (filter ok_call (calls l)).*1 ->
  Forall clean_step (steps l') /\
  step_node_id <$> steps l' = (filter ok_call (calls l')).*1.
Proof.
  induction budget as [|budget IH]; intros l w l' h w' H Hclean Hlen;
    simpl in H.
  - repeat loop_step H; auto.
  - destruct (String.eqb (current_node l) (exit_node net));
      [inversion H; subst; auto|].
    destruct (String.eqb (current_node l) START).
    + repeat loop_step H; auto. eapply IH; eauto.
    + destruct (execute_node net (tick l) w) as [[l1 oe] w1] eqn:Hnode.
      apply execute_node_spec in Hnode as (Hcur & Hit & Hvis & Hcase).
      assert (Forall clean_step (steps l1) /\
              step_node_id <$> steps l1 = (filter ok_call (calls l1)).*1)
        as [Hclean1 Hlen1].
      { destruct oe as [[e step]|].
        - destruct Hcase as (x & Hcalls & _ & _ & Hsteps & _).
          rewrite Hsteps, Hcalls, filter_app, fmap_app. simpl.
          by rewrite app_nil_r.
        - destruct Hcase as [->|(u & Hcalls & Hsteps)]; [done|].
          rewrite Hsteps, Hcalls, filter_app, !fmap_app. simpl.
          rewrite <- Hlen.
          split; [|done]. apply Forall_app. split; [done|].
          by repeat constructor. }
      destruct oe as [[e step]|]; [inversion H; subst; auto|].
      repeat loop_step H; auto. eapply IH; eauto.
Qed.

(** How far the loop got, by halting reason. *)
Lemma execute_loop_halt net budget : forall l w l' h w',
  execute_loop net budget l w = (l', h, w') ->
  iteration l' <= iteration l + budget /\
  match h with
  | ReachedExit => current_node l' = exit_node net
  | BudgetExhausted =>
      current_node l' <> exit_node net /\ iteration l' = iteration l + budget
  | NoNextNode =>
      current_node l' <> exit_node net /\ iteration l < iteration l'
  | Raised _ => iteration l < iteration l'
  end.
Proof.
  induction budget as [|budget IH]; intros l w l' h w' H; simpl in H.
  - destruct (String.eqb_spec (current_node l) (exit_node net));
      inversion H; subst; split; auto with lia.
  - destruct (String.eqb_spec (current_node l) (exit_node net)) as [|Hne];
      [inversion H; subst; split; auto with lia|].
    destruct (String.eqb (current_node l) START).
    + repeat loop_step H; simpl; try (split; [lia | auto with lia]).
      apply IH in H as [Hle Hh]. simpl in *. split; [lia|].
      destruct h; intuition lia.
    + destruct (execute_node net (tick l) w) as [[l1 oe] w1] eqn:Hnode.
      apply execute_node_spec in Hnode as (Hcur & Hit & Hvis & _).
      simpl in *.
      repeat loop_step H; simpl; try (split; [lia | ]);
        try (rewrite ?Hcur, ?Hit; auto with lia; fail).
      apply IH in H as [Hle Hh]. simpl in *. split; [lia|].
      destruct h; intuition lia.
Qed.

(** The steps [execute] returns: none carries an error, and their node
    ids are those of the calls that returned. *)
Lemma execute_steps_clean net (initial_state : StateDict)
    (max_iterations : Z) w :
  let run := (execute_run net initial_state max_iterations w).1.1 in
  let r := (execute net initial_state max_iterations w).1 in
  Forall clean_step (result_steps r) /\
  step_node_id <$> result_steps r = (filter ok_call (calls run)).*1.
Proof.
  unfold execute, execute_run.
  destruct (execute_loop _ _ _ _) as [[l h] w'] eqn:Hloop. simpl.
  apply execute_loop_steps in Hloop; [|by constructor|done].
  by destruct h.
Qed.

(** Where the loop of [execute] broke for want of a next node, routing
    from the node it stands on, in the state it ends in, gave none. *)
Lemma execute_loop_no_next net budget : forall l w l' w',
  execute_loop net budget l w = (l', NoNextNode, w') ->
  exists (w0 : W) (next : option string),
    get_next_node (edges net) (current_node l') (current_state l') w0
      = (Ok next, w') /\
    (next = None \/ (current_node l' = START /\ truthy next = false)).
Proof.
  induction budget as [|budget IH]; intros l w l' w' H; simpl in H.
  - by destruct (String.eqb (current_node l) (exit_node net)).
  - destruct (String.eqb (current_node l) (exit_node net)); [done|].
    destruct (String.eqb_spec (current_node l) START) as [Hstart|Hstart].
    + destruct (get_next_node (edges net) START (current_state l) w)
        as [[[n|]|x] w1] eqn:Hnext; [| |done].
      * destruct (str_truthy n) eqn:Hn; [by apply IH in H|].
        inversion H; subst. exists w, (Some n). simpl.
        rewrite Hstart. eauto.
      * inversion H; subst. exists w, None. simpl. rewrite Hstart. eauto.
    + destruct (execute_node net (tick l) w) as [[l1 [[x step]|]] w1];
        [done|].
      destruct (get_next_node (edges net) (current_node l1)
                              (current_state l1) w1)
        as [[[n|]|x] w2] eqn:Hnext; [by apply IH in H | | done].
      inversion H; subst. eauto.
Qed.

(** C7 (amended). The loop of [execute] stops, short of the exit node,
    in two ways.  It breaks in the iteration in which routing gives no
    next node: at [START] when routing from [START] gives nothing or an
    empty id, at a node when, after the node has run, routing from it
    gives nothing.  And it ends when no iteration is left.  Either way the
    result has [completed = false] and no error.  A halt on the budget has
    [iterations] equal to the budget; a halt on routing has [iterations]
    between one and the budget, the budget included, and was preceded by a
    routing call that gave no next node.  With [max_iterations = 0] and an
    entry node that is not the exit node, nothing runs: [completed =
    false], [iterations = 0] and the final state is the initial state. *)
Theorem execute_halts_incomplete net :
  (forall budget l w (next : option string) (w' : W),
     current_node l = START -> START <> exit_node net ->
     get_next_node (edges net) START (current_state l) w = (Ok next, w') ->
     truthy next = false ->
     execute_loop net (S budget) l w = (tick l, NoNextNode, w') /\
     make_result net (tick l) NoNextNode
       = mkResult (current_state l) (steps l) (S (iteration l)) None false) /\
  (forall budget l w l1 (w1 w2 : W),
     current_node l <> exit_node net -> current_node l <> START ->
     execute_node net (tick l) w = (l1, None, w1) ->
     get_next_node (edges net) (current_node l1) (current_state l1) w1
       = (Ok None, w2) ->
     execute_loop net (S budget) l w = (l1, NoNextNode, w2) /\
     make_result net l1 NoNextNode
       = mkResult (current_state l1) (steps l1) (S (iteration l)) None
                  false) /\
  (forall l w,
     current_node l <> exit_node net ->
     execute_loop net 0 l w = (l, BudgetExhausted, w) /\
     make_result net l BudgetExhausted
       = mkResult (current_state l) (steps l) (iteration l) None false) /\
  (forall (initial_state : StateDict) (max_iterations : Z) w,
     let run := execute_run net initial_state max_iterations w in
     let r := (execute net initial_state max_iterations w).1 in
     (run.1.2 = NoNextNode ->
        completed r = false /\ error r = None /\
        1 <= iterations r /\
        (Z.of_nat (iterations r) <= Z.max 0 max_iterations)%Z /\
        exists (w0 : W) (next : option string),
          get_next_node (edges net) (current_node run.1.1) (final_state r) w0
            = (Ok next, run.2) /\
          (next = None \/
           (current_node run.1.1 = START /\ truthy next = false))) /\
     (run.1.2 = BudgetExhausted ->
        completed r = false /\ error r = None /\
        Z.of_nat (iterations r) = Z.max 0 max_iterations) /\
     (max_iterations = 0%Z -> entry_node net <> exit_node net ->
        completed r = false /\ error r = None /\ iterations r = 0 /\
        final_state r = initial_state)).
Proof.
  split; [|split; [|split]].
  - intros budget l w next w' Hstart Hexit Hnext Hfalsy.
    assert (He : String.eqb (current_node l) (exit_node net) = false).
    { apply String.eqb_neq. congruence. }
    split; [|by simpl; rewrite He].
    change (execute_loop net (S budget) l w) with
      (if String.eqb (current_node l) (exit_node net)
       then (l, ReachedExit, w)
       else if String.eqb (current_node l) START then
         match get_next_node (edges net) START (current_state l) w with
         | (Ok next_node, w') =>
             match next_node with
             | Some n =>
                 if str_truthy n
                 then execute_loop net budget (goto (tick l) n) w'
                 else (tick l, NoNextNode, w')
             | None => (tick l, NoNextNode, w')
             end
         | (Exc e, w') => (tick l, Raised e, w')
         end
       else
         match execute_node net (tick l) w with
         | (l1, Some (e, _), w') => (l1, Raised e, w')
         | (l1, None, w') =>
             match get_next_node (edges net) (current_node l1)
                                 (current_state l1) w' with
             | (Ok (Some n), w'') => execute_loop net budget (goto l1 n) w''
             | (Ok None, w'') => (l1, NoNextNode, w'')
             | (Exc e, w'') => (l1, Raised e, w'')
             end
         end).
    rewrite He, Hstart, String.eqb_refl, Hnext.
    destruct next as [n|]; [|done]. simpl in Hfalsy. by rewrite Hfalsy.
  - intros budget l w l1 w1 w2 Hexit Hstart Hstep Hnext.
    pose proof (execute_node_spec _ _ _ _ _ _ Hstep)
      as (Hcur & Hit & _ & _). simpl in Hcur, Hit.
    apply String.eqb_neq in Hexit, Hstart.
    split.
    + simpl. by rewrite Hexit, Hstart, Hstep, Hnext.
    + simpl. by rewrite Hcur, Hexit, Hit.
  - intros l w Hexit. apply String.eqb_neq in Hexit. simpl.
    by rewrite Hexit.
  - intros initial_state max_iterations w.
    unfold execute, execute_run.
    destruct (execute_loop _ _ _ _) as [[l h] w'] eqn:Hloop. simpl.
    pose proof (execute_loop_halt _ _ _ _ _ _ _ Hloop) as [Hle Hh].
    simpl in Hle, Hh.
    split; [|split].
    + intros ->. destruct Hh as [Hne Hlt]. simpl.
      apply execute_loop_no_next in Hloop.
      apply String.eqb_neq in Hne. rewrite Hne.
      repeat split; [lia | lia | exact Hloop].
    + intros ->. destruct Hh as [Hne Hit]. simpl.
      apply String.eqb_neq in Hne. rewrite Hne. repeat split. lia.
    + intros -> Hne. simpl in Hloop.
      apply String.eqb_neq in Hne. rewrite Hne in Hloop.
      inversion Hloop; subst. simpl. by rewrite Hne.
Qed.

(** ** Determinism *)

Lemma Node_call_pure net id node (state : StateDict) :
  pure_network net -> nodes net !! id = Some node ->
  worldless (Node_call node state).
Proof.
  intros [Hnodes _] Hlook. unfold Node_call.
  destruct (func node) as [f|] eqn:Hf; [|by eexists].
  destruct (Hnodes _ _ _ Hlook Hf) as [g Hg].
  destruct (g state) as [v|x] eqn:Hgs.
  - exists (Ok match v with
               | VNone => ∅ | VDict d => d | _ => {["result" := v]}
               end).
    intros w. rewrite Hg, Hgs. by destruct v.
  - exists (Exc x). intros w. by rewrite Hg, Hgs.
Qed.

Lemma find_elem_of {A} (P : A -> bool) (xs : list A) (a : A) :
  List.find P xs = Some a -> a ∈ xs.
Proof. intros H. apply find_some in H as [H _]. by apply list_elem_of_In. Qed.

Lemma get_edges_from_elem_of (es : EdgeSet W) source (e : Edge W) :
  e ∈ get_edges_from es source -> e ∈ es.
Proof.
  unfold get_edges_from. rewrite !list_elem_of_In, filter_In. tauto.
Qed.

Lemma get_next_node_pure net source (state : StateDict) :
  pure_network net -> worldless (get_next_node (edges net) source state).
Proof.
  intros [_ Hedges]. unfold get_next_node.
  destruct (get_edges_from (edges net) source) as [|e0 es] eqn:Hfrom;
    [by eexists|].
  destruct (List.find is_conditional (e0 :: es)) as [e|] eqn:Hfind.
  - assert (He : e ∈ edges net).
    { apply (get_edges_from_elem_of _ source). rewrite Hfrom.
      by apply find_elem_of in Hfind. }
    unfold route. destruct (condition e) as [c|] eqn:Hc.
    + destruct (Hedges _ _ He Hc) as [g Hg].
      exists match g state with Ok t => Ok (Some t) | Exc x => Exc x end.
      intros w. rewrite Hg. by destruct (g state).
    + destruct (target_node e) as [t|]; [destruct (str_truthy t)|];
        by eexists.
  - destruct (List.find is_static_target (e0 :: es)); by eexists.
Qed.

Lemma execute_node_pure net l :
  pure_network net -> worldless (execute_node net l).
Proof.
  intros Hpure. unfold execute_node.
  destruct (nodes net !! current_node l) as [node|] eqn:Hlook; [|by eexists].
  destruct (Node_call_pure _ _ _ (current_state l) Hpure Hlook) as [r Hr].
  destruct r as [u|x]; eexists; intros w; by rewrite Hr.
Qed.

Lemma execute_loop_pure net budget :
  pure_network net -> forall l, worldless (execute_loop net budget l).
Proof.
  intros Hpure. induction budget as [|budget IH]; intros l; simpl.
  - destruct (String.eqb _ _); by eexists.
  - destruct (String.eqb (current_node l) (exit_node net)); [by eexists|].
    destruct (String.eqb (current_node l) START).
    + destruct (get_next_node_pure _ START (current_state l) Hpure) as [r Hr].
      destruct r as [[n|]|x].
      * destruct (str_truthy n) eqn:Hn.
        -- destruct (IH (goto (tick l) n)) as [a Ha]. exists a.
           intros w. by rewrite Hr, Hn, Ha.
        -- eexists. intros w. by rewrite Hr, Hn.
      * eexists. intros w. by rewrite Hr.
      * eexists. intros w. by rewrite Hr.
    + destruct (execute_node_pure _ (tick l) Hpure) as [[l1 oe] Hnode].
      destruct oe as [[e step]|]; [eexists; intros w; by rewrite Hnode|].
      destruct (get_next_node_pure _ (current_node l1) (current_state l1)
                  Hpure) as [r Hr].
      destruct r as [[n|]|x].
      * destruct (IH (goto l1 n)) as [a Ha]. exists a.
        intros w. by rewrite Hnode, Hr, Ha.
      * eexists. intros w. by rewrite Hnode, Hr.
      * eexists. intros w. by rewrite Hnode, Hr.
Qed.

(** C8. On a network whose node callables and edge conditions are pure,
    two [invoke] calls on the same initial state, made in any two outside
    worlds, return the same final state, visit the same nodes in the same
    order and call the same node callables with the same outcomes. *)
Theorem invoke_deterministic net (initial_state : StateDict)
    (max_iterations : Z) (w1 w2 : W) :
  pure_network net ->
  let run1 := (execute_run net initial_state max_iterations w1).1.1 in
  let run2 := (execute_run net initial_state max_iterations w2).1.1 in
  (invoke net initial_state max_iterations w1).1
    = (invoke net initial_state max_iterations w2).1 /\
  visited run1 = visited run2 /\
  calls run1 = calls run2.
Proof.
  intros Hpure. unfold invoke, execute, execute_run.
  destruct (execute_loop_pure net (Z.to_nat max_iterations) Hpure
              (mkLocals initial_state [] (entry_node net) 0 []
                        [entry_node net])) as [[l h] Hrun].
  by rewrite !Hrun.
Qed.

End ExecuteProperties.


Section StreamProperties.

Variable W : Type.
Implicit Types (net : WorkflowNetwork W) (state : StateDict) (w : W).

Lemma yield_fst (item : string * StateDict) (r : StreamRun * W) :
  items (yield item r).1 = item :: items r.1 /\
  stream_node (yield item r).1 = stream_node r.1 /\
  stream_state (yield item r).1 = stream_state r.1 /\
  stream_halt (yield item r).1 = stream_halt r.1 /\
  (yield item r).2 = r.2.
Proof. done. Qed.

(** [stream] is its loop followed by the final item. *)
Lemma stream_items net state (max_iterations : Z) w :
  let r := (stream_loop net (Z.to_nat max_iterations) (entry_node net)
                        state w).1 in
  items (stream net state max_iterations w).1 =
    items r ++ (if String.eqb (stream_node r) (exit_node net)
                then [(exit_node net, stream_state r)] else []) /\
  stream_node (stream net state max_iterations w).1 = stream_node r /\
  stream_state (stream net state max_iterations w).1 = stream_state r /\
  stream_halt (stream net state max_iterations w).1 = stream_halt r.
Proof.
  unfold stream. destruct (stream_loop _ _ _ _ _) as [r w']. simpl.
  destruct (String.eqb (stream_node r) (exit_node net)); simpl;
    by rewrite ?app_nil_r.
Qed.

(** The loop of [stream] reads the entry node only to start. *)
Lemma stream_loop_set_entry_point net (entry : string) budget :
  forall (cur : string) state w,
  stream_loop (set_entry_point net entry) budget cur state w =
  stream_loop net budget cur state w.
Proof.
  induction budget as [|budget IH]; intros cur state w; simpl; [done|].
  destruct (String.eqb cur (exit_node net)); [done|].
  destruct (String.eqb cur START).
  - destruct (get_next_node (edges net) START state w) as [[[n|]|e] w'];
      [|done..].
    destruct (str_truthy n); [|done]. by rewrite IH.
  - change (stream_node_step (set_entry_point net entry) cur state w)
      with (stream_node_step net cur state w).
    destruct (stream_node_step net cur state w) as [[item state'] w'].
    destruct (get_next_node (edges net) cur state' w') as [[[n|]|e] w''];
      [|done..].
    by rewrite IH.
Qed.

(** The loop of [stream] at [START] with budget left. *)
Lemma stream_loop_START net budget state w :
  START <> exit_node net ->
  stream_loop net (S budget) START state w =
  match get_next_node (edges net) START state w with
  | (Ok (Some n), w') =>
      if str_truthy n then
        yield (START, {["next_node" := VStr n]})
              (stream_loop net budget n state w')
      else stop START state NoNextNode w'
  | (Ok None, w') => stop START state NoNextNode w'
  | (Exc e, w') => stop START state (Raised e) w'
  end.
Proof.
  intros Hexit. apply String.eqb_neq in Hexit.
  change (stream_loop net (S budget) START state w) with
    (if String.eqb START (exit_node net) then stop START state ReachedExit w
     else if String.eqb START START then
       match get_next_node (edges net) START state w with
       | (Ok next_node, w') =>
           match next_node with
           | Some n =>
               if str_truthy n then
                 yield (START, {["next_node" := VStr n]})
                       (stream_loop net budget n state w')
               else stop START state NoNextNode w'
           | None => stop START state NoNextNode w'
           end
       | (Exc e, w') => stop START state (Raised e) w'
       end
     else
       let '(item, state', w') := stream_node_step net START state w in
       yield_opt item
         match get_next_node (edges net) START state' w' with
         | (Ok (Some n), w'') => stream_loop net budget n state' w''
         | (Ok None, w'') => stop START state' NoNextNode w''
         | (Exc e, w'') => stop START state' (Raised e) w''
         end).
  rewrite Hexit, String.eqb_refl.
  by destruct (get_next_node (edges net) START state w) as [[[n|]|e] w'].
Qed.

(** One turn of the loop of [stream] on a node whose callable raises. *)
Lemma stream_loop_node_failure net budget (cur : string) state w
    (node : Node W) (x : exn) (w1 : W) :
  cur <> exit_node net -> cur <> START ->
  nodes net !! cur = Some node ->
  Node_call node state w = (Exc x, w1) ->
  stream_loop net (S budget) cur state w =
  yield (cur, {["error" := VStr (str x)]})
    match get_next_node (edges net) cur state w1 with
    | (Ok (Some n), w2) => stream_loop net budget n state w2
    | (Ok None, w2) => stop cur state NoNextNode w2
    | (Exc e, w2) => stop cur state (Raised e) w2
    end.
Proof.
  intros Hexit Hstart Hlook Hcall. simpl.
  apply String.eqb_neq in Hexit, Hstart. rewrite Hexit, Hstart.
  unfold stream_node_step. by rewrite Hlook, Hcall.
Qed.

(** The loop of [stream] stops on the exit node exactly when it stops
    because it reached it. *)
Lemma stream_loop_halt net budget : forall (cur : string) state w,
  let r := (stream_loop net budget cur state w).1 in
  match stream_halt r with
  | ReachedExit => stream_node r = exit_node net
  | _ => stream_node r <> exit_node net
  end.
Proof.
  induction budget as [|budget IH]; intros cur state w; simpl.
  - by destruct (String.eqb_spec cur (exit_node net)).
  - destruct (String.eqb_spec cur (exit_node net)) as [|Hne]; [done|].
    destruct (String.eqb cur START).
    + destruct (get_next_node (edges net) START state w) as [[[n|]|e] w'];
        [|done..].
      destruct (str_truthy n); [apply IH | done].
    + destruct (stream_node_step net cur state w) as [[item state'] w'].
      assert (Hitem : forall r : StreamRun * W,
                 stream_halt (yield_opt item r).1 = stream_halt r.1 /\
                 stream_node (yield_opt item r).1 = stream_node r.1).
      { intros r. by destruct item. }
      destruct (get_next_node (edges net) cur state' w') as [[[n|]|e] w''];
        destruct (Hitem (stream_loop net budget n state' w'')) as [-> ->]
        || (by destruct item).
      apply IH.
Qed.

(** C2 (amended). In the loop of [stream], a node whose callable raises
    yields the item [(node_id, {"error": message})], and when routing from
    that node gives a next node the traversal goes on from it with the
    state unchanged and one iteration less.  Whenever the traversal reaches
    the exit node of the network ([END] unless [set_finish_point] changed
    it) within the iteration budget, the last item is
    [(exit_node, final state)]; when it stops for any other reason it
    stops on another node and no such item is added. *)
Theorem stream_failure_continues net :
  (forall budget (cur : string) state w (node : Node W) (x : exn) (w1 : W)
          (n : string) (w2 : W),
     cur <> exit_node net -> cur <> START ->
     nodes net !! cur = Some node ->
     Node_call node state w = (Exc x, w1) ->
     get_next_node (edges net) cur state w1 = (Ok (Some n), w2) ->
     stream_loop net (S budget) cur state w =
     yield (cur, {["error" := VStr (str x)]})
           (stream_loop net budget n state w2)) /\
  (forall state (max_iterations : Z) w,
     let r := (stream net state max_iterations w).1 in
     (stream_halt r = ReachedExit ->
        stream_node r = exit_node net /\
        exists pre, items r = pre ++ [(exit_node net, stream_state r)]) /\
     (stream_halt r <> ReachedExit ->
        stream_node r <> exit_node net /\
        items r = items (stream_loop net (Z.to_nat max_iterations)
                                     (entry_node net) state w).1)).
Proof.
  split.
  - intros budget cur state w node x w1 n w2 Hexit Hstart Hlook Hcall Hnext.
    rewrite (stream_loop_node_failure _ _ _ _ _ _ _ _ Hexit Hstart Hlook Hcall).
    by rewrite Hnext.
  - intros state max_iterations w.
    destruct (stream_items net state max_iterations w)
      as (Hitems & Hnode & Hstate & Hhalt).
    pose proof (stream_loop_halt net (Z.to_nat max_iterations)
                  (entry_node net) state w) as Hloop.
    simpl in *. rewrite Hitems, Hnode, Hstate, Hhalt. split.
    + intros Hexit. rewrite Hexit in Hloop.
      rewrite Hloop, String.eqb_refl. eauto.
    + intros Hexit.
      assert (Hne : stream_node
                (stream_loop net (Z.to_nat max_iterations) (entry_node net)
                             state w).1 <> exit_node net).
      { revert Hloop Hexit.
        generalize (stream_loop net (Z.to_nat max_iterations)
                                (entry_node net) state w).1.
        intros r. by destruct (stream_halt r). }
      split; [exact Hne|].
      apply String.eqb_neq in Hne. by rewrite Hne, app_nil_r.
Qed.

(** C9 (amended). When the entry node is [START], the exit node is not,
    at least one iteration is allowed and routing from [START] gives a
    non-empty node id [n], the first item of [stream] is
    [(START, {"next_node": n})]; no callable ran for it, and the items that
    follow are those of the traversal entered at [n] with one iteration
    less. *)
Theorem stream_first_item_START net state (max_iterations : Z) w
    (n : string) (w' : W) :
  entry_node net = START -> exit_node net <> START ->
  (1 <= max_iterations)%Z ->
  get_next_node (edges net) START state w = (Ok (Some n), w') ->
  n <> "" ->
  items (stream net state max_iterations w).1 =
  (START, {["next_node" := VStr n]}) ::
  items (stream (set_entry_point net n) state (max_iterations - 1) w').1.
Proof.
  intros Hentry Hexit Hmax Hnext Hn.
  destruct (stream_items net state max_iterations w) as (-> & _).
  destruct (stream_items (set_entry_point net n) state (max_iterations - 1) w')
    as (-> & _).
  replace (Z.to_nat max_iterations)
    with (S (Z.to_nat (max_iterations - 1))) by lia.
  assert (Hn' : str_truthy n = true).
  { unfold str_truthy. apply negb_true_iff. by apply String.eqb_neq. }
  rewrite Hentry, stream_loop_START, Hnext, Hn' by congruence.
  rewrite stream_loop_set_entry_point. simpl.
  by destruct (stream_loop net _ n state w') as [r w''].
Qed.

End StreamProperties.

(** * The statements on concrete networks *)

Import Samples.

Lemma Node_call_shapes_witness :
  Node_call (mkNode "n" None) ∅ tt = (Ok ∅, tt) /\
  Node_call (mkNode "n" (Some (returns unit VNone))) ∅ tt = (Ok ∅, tt) /\
  (Node_call (mkNode "n" (Some (returns unit (VInt 7)))) ∅ tt
     = (Ok {["result" := VInt 7]}, tt) /\
   exists l',
     execute_node (add_node WorkflowNetwork_init "n" (returns unit (VInt 7)))
                  (mkLocals ∅ [] "n" 1 [] [START; "n"]) tt = (l', None, tt) /\
     current_state l' = <["result" := VInt 7]> ∅).
Proof.
  split; [|split].
  - apply (Node_call_shapes unit (mkNode "n" None) ∅ tt). reflexivity.
  - destruct (Node_call_shapes unit
                (mkNode "n" (Some (returns unit VNone))) ∅ tt)
      as (_ & Hnone & _).
    apply (Hnone (returns unit VNone) tt); reflexivity.
  - destruct (Node_call_shapes unit
                (mkNode "n" (Some (returns unit (VInt 7)))) ∅ tt)
      as (_ & _ & Hother).
    destruct (Hother (returns unit (VInt 7)) (VInt 7) tt)
      as [Hcall Hengine]; [reflexivity | reflexivity | discriminate
                          | discriminate |].
    split; [exact Hcall|].
    apply Hengine; [vm_compute; reflexivity | reflexivity].
Defined.

Lemma get_next_node_policy_witness :
  get_next_node (mixed unit) "a" ∅ tt = (Ok (Some "c"), tt) /\
  get_next_node (two_static unit) "a" ∅ tt = (Ok (Some "b"), tt) /\
  get_next_node (two_static unit) "z" ∅ tt = (Ok None, tt).
Proof.
  split; [|split].
  - destruct (get_next_node_policy unit (mixed unit) "a" ∅ tt) as [Hcond _].
    apply (Hcond [Edge_init "a" (Some "b") None]
                 (Edge_init "a" None (Some (answers unit "c")))
                 [Edge_init "a" None (Some (answers unit "d"))]);
      [reflexivity | reflexivity | reflexivity |].
    intros e' Hin _. apply list_elem_of_singleton in Hin. subst. reflexivity.
  - destruct (get_next_node_policy unit (two_static unit) "a" ∅ tt)
      as [_ Hstatic].
    destruct Hstatic as [Hfirst _].
    { intros e Hin _. apply list_elem_of_In in Hin. simpl in Hin.
      destruct Hin as [<-|[<-|[]]]; reflexivity. }
    apply (Hfirst [Edge_init "a" (Some "") None]
                  (Edge_init "a" (Some "b") None) []);
      [reflexivity | reflexivity | reflexivity |].
    intros e' Hin _. apply list_elem_of_singleton in Hin. subst. reflexivity.
  - destruct (get_next_node_policy unit (two_static unit) "z" ∅ tt)
      as [_ Hstatic].
    destruct Hstatic as [_ Hnone].
    { intros e Hin _. apply list_elem_of_In in Hin. simpl in Hin.
      destruct Hin as [<-|[<-|[]]]; reflexivity. }
    apply Hnone.
    intros e Hin Hsrc. apply list_elem_of_In in Hin. simpl in Hin.
    destruct Hin as [<-|[<-|[]]]; discriminate Hsrc.
Defined.

(** "The first static edge's target" fails on [add_edge("a", "")],
    [add_edge("a", "b")]:
    no edge from [a] is conditional, the first static edge from [a] has the
    empty target, and routing from [a] gives [b]. *)
Lemma get_next_node_first_static_refuted :
  exists e0,
    first_static_edge (two_static unit) "a" = Some e0 /\
    List.find is_conditional (get_edges_from (two_static unit) "a") = None /\
    get_next_node (two_static unit) "a" ∅ tt = (Ok (Some "b"), tt) /\
    get_next_node (two_static unit) "a" ∅ tt <> (Ok (target_node e0), tt).
Proof.
  eexists. split; [reflexivity|]. split; [reflexivity|].
  split; [reflexivity|]. discriminate.
Qed.

Lemma add_conditional_edge_resolves_witness :
  exists e,
    edges (add_conditional_edge WorkflowNetwork_init "a"
             (answers unit "short") {["short" := "s"; "default" := "d"]})
      = [e] /\
    route e ∅ tt = (Ok "s", tt).
Proof.
  destruct (add_conditional_edge_resolves unit WorkflowNetwork_init "a"
              (answers unit "short") {["short" := "s"; "default" := "d"]}
              ∅ tt "short" tt eq_refl)
    as (e & Hedges & _ & _ & Hkey & _).
  exists e. split; [exact Hedges|]. apply Hkey. vm_compute. reflexivity.
Defined.

(** [validate] accepts a network one of whose edges has a target that is
    not null, is not [END] and names no node. *)
Lemma validate_accepts_empty_target :
  (exists e t, e ∈ edges (empty_target unit) /\ target_node e = Some t /\
               dangling (empty_target unit) END t = true) /\
  validate (empty_target unit) = Ok true.
Proof.
  split; [|vm_compute; reflexivity].
  exists (Edge_init "a" (Some "") None), "".
  split; [|split; [reflexivity | vm_compute; reflexivity]].
  right. left.
Qed.

Lemma execute_node_failure_reported_witness :
  error (execute (failing unit) ∅ 100 tt).1 = Some "Node a failed: boom" /\
  completed (execute (failing unit) ∅ 100 tt).1 = false.
Proof.
  destruct (execute_node_failure_reported unit (failing unit) ∅ 100 tt
              "a" (mkExn "Exception" "boom")) as (Herr & Hdone & _).
  - vm_compute. left.
  - split; [exact Herr | exact Hdone].
Defined.

(** C4. On [START -> a -> b -> END] with [a] raising, the node block of
    [execute] does put the failure on the step of [a], but that step never
    reaches [steps]: [execute] calls [a] once, reports the failure in
    [error], and returns no step at all. *)
Theorem execute_drops_failing_step :
  let run := (execute_run (failing unit) ∅ 100 tt).1.1 in
  let r := (execute (failing unit) ∅ 100 tt).1 in
  (exists l' e,
     execute_node (failing unit) (mkLocals ∅ [] "a" 2 [] [START; "a"]) tt
       = (l', Some (e, mkStep "a" (Some ∅) None (Some "boom")), tt) /\
     steps l' = []) /\
  calls run = [("a", Exc (mkExn "Exception" "boom"))] /\
  error r = Some "Node a failed: boom" /\
  result_steps r = [].
Proof.
  split; [|vm_compute; auto].
  do 2 eexists. split; [vm_compute; reflexivity | reflexivity].
Qed.

Lemma execute_halts_incomplete_witness :
  (execute_loop (start_without_target unit) 1
     (mkLocals ∅ [] START 0 [] [START]) tt
   = (mkLocals ∅ [] START 1 [] [START], NoNextNode, tt)) /\
  (execute_loop (dead_end unit) 5 (mkLocals ∅ [] "a" 1 [] [START; "a"]) tt
   = (mkLocals ∅ [mkStep "a" (Some ∅) (Some ∅) None] "a" 2
               [("a", Ok ∅)] [START; "a"], NoNextNode, tt)) /\
  (make_result (Cases.cycle unit)
     (mkLocals ∅ [] "a" 7 [] [START; "a"]) BudgetExhausted
   = mkResult ∅ [] 7 None false) /\
  completed (execute (dead_end unit) ∅ 100 tt).1 = false /\
  (completed (execute (linear unit) ∅ 1 tt).1 = false /\
   Z.of_nat (iterations (execute (linear unit) ∅ 1 tt).1) = 1%Z) /\
  (iterations (execute (linear unit) ∅ 0 tt).1 = 0 /\
   final_state (execute (linear unit) ∅ 0 tt).1 = ∅).
Proof.
  split; [|split; [|split; [|split; [|split]]]].
  - destruct (execute_halts_incomplete unit (start_without_target unit))
      as (Hstart & _).
    apply (Hstart 0 (mkLocals ∅ [] START 0 [] [START]) tt None tt);
      [reflexivity | discriminate | reflexivity | reflexivity].
  - destruct (execute_halts_incomplete unit (dead_end unit))
      as (_ & Hnode & _).
    apply (Hnode 4 (mkLocals ∅ [] "a" 1 [] [START; "a"]) tt
             (mkLocals ∅ [mkStep "a" (Some ∅) (Some ∅) None] "a" 2
                       [("a", Ok ∅)] [START; "a"]) tt tt);
      [discriminate | discriminate | vm_compute; reflexivity | reflexivity].
  - destruct (execute_halts_incomplete unit (Cases.cycle unit))
      as (_ & _ & Hbudget & _).
    apply (Hbudget (mkLocals ∅ [] "a" 7 [] [START; "a"]) tt). discriminate.
  - destruct (execute_halts_incomplete unit (dead_end unit))
      as (_ & _ & _ & Hrun).
    destruct (Hrun ∅ 100%Z tt) as (Hnone & _ & _).
    apply Hnone. vm_compute. reflexivity.
  - destruct (execute_halts_incomplete unit (linear unit))
      as (_ & _ & _ & Hrun).
    destruct (Hrun ∅ 1%Z tt) as (_ & Hbudget & _).
    destruct Hbudget as (Hdone & _ & Hiter); [vm_compute; reflexivity|].
    split; [exact Hdone | exact Hiter].
  - destruct (execute_halts_incomplete unit (linear unit))
      as (_ & _ & _ & Hrun).
    destruct (Hrun ∅ 0%Z tt) as (_ & _ & Hzero).
    destruct Hzero as (_ & _ & Hiter & Hstate);
      [reflexivity | discriminate |].
    split; [exact Hiter | exact Hstate].
Defined.

(** The counter does not always tell the two halts apart.  With
    [max_iterations = 2], [START -> a] with nothing leaving [a] stops for
    want of a next node, [START -> a -> a] stops on its budget, and the
    two results are the same in every field, [iterations] included. *)
Lemma execute_halts_indistinguishable :
  (execute_run (dead_end unit) ∅ 2 tt).1.2 = NoNextNode /\
  (execute_run (Cases.cycle unit) ∅ 2 tt).1.2 = BudgetExhausted /\
  (execute (dead_end unit) ∅ 2 tt).1 = (execute (Cases.cycle unit) ∅ 2 tt).1 /\
  (execute (dead_end unit) ∅ 2 tt).1
    = mkResult ∅ [mkStep "a" (Some ∅) (Some ∅) None] 2 None false.
Proof. vm_compute. repeat split. Qed.

Lemma invoke_deterministic_witness :
  (invoke (linear nat) ∅ 100 0).1 = (invoke (linear nat) ∅ 100 7).1.
Proof.
  apply (invoke_deterministic nat (linear nat) ∅ 100 0 7).
  split.
  - intros id node f Hlook Hf.
    unfold linear, add_edge, add_node, WorkflowNetwork_init in Hlook.
    cbn [nodes] in Hlook.
    apply lookup_insert_Some in Hlook as [[_ <-]|[_ Hlook]];
      [|by rewrite lookup_empty in Hlook].
    simpl in Hf. inversion Hf.
    exists (fun _ => Ok (VDict {["x" := VInt 1]})). reflexivity.
  - intros e c Hin Hc. apply list_elem_of_In in Hin. simpl in Hin.
    destruct Hin as [<-|[<-|[]]]; discriminate Hc.
Defined.

(** Without purity the two calls may differ: a callable that reads a
    counter of the outside world. *)
Example invoke_impure_differs :
  (invoke counting ∅ 10 0).1 <> (invoke counting ∅ 10 1).1.
Proof. vm_compute. discriminate. Qed.

Lemma stream_failure_continues_witness :
  items (stream_loop (failing unit) 3 "a" ∅ tt).1 =
    ("a", {["error" := VStr "boom"]})
    :: items (stream_loop (failing unit) 2 "b" ∅ tt).1 /\
  exists pre,
    items (stream (failing unit) ∅ 100 tt).1 =
    pre ++ [(END, stream_state (stream (failing unit) ∅ 100 tt).1)].
Proof.
  destruct (stream_failure_continues unit (failing unit)) as [Hfail Hfinal].
  split.
  - rewrite (Hfail 2 "a" ∅ tt (mkNode "a" (Some (raises unit "boom")))
               (mkExn "Exception" "boom") tt "b" tt);
      [reflexivity | discriminate | discriminate
      | vm_compute; reflexivity | reflexivity | reflexivity].
  - destruct (Hfinal ∅ 100%Z tt) as [Hexit _].
    apply Hexit. vm_compute. reflexivity.
Defined.

(** With [set_finish_point("b")] and [START -> a -> END], the traversal
    reaches [END] on its second iteration and stops there; the last item
    is the one of [a], not [(END, final state)]. *)
Lemma stream_END_without_final_item :
  let r := (stream (finish_at_b unit) ∅ 100 tt).1 in
  validate (finish_at_b unit) = Ok true /\
  stream_node r = END /\ stream_halt r = NoNextNode /\
  (items r).*1 = [START; "a"] /\
  last (items r) <> Some (END, stream_state r).
Proof. vm_compute. repeat split. discriminate. Qed.

Lemma stream_first_item_START_witness :
  items (stream (linear unit) ∅ 100 tt).1 =
  (START, {["next_node" := VStr "a"]})
  :: items (stream (set_entry_point (linear unit) "a") ∅ 99 tt).1.
Proof.
  apply (stream_first_item_START unit (linear unit) ∅ 100 tt "a" tt);
    [reflexivity | discriminate | lia | reflexivity | discriminate].
Defined.

(** An edge leaves [START] and an iteration is allowed, yet [stream]
    yields no item for [START]: the edge has no target, or its condition
    raises, or [START] is itself the exit node. *)
Lemma stream_START_edge_no_item :
  (validate (start_without_target unit) = Ok true /\
   entry_node (start_without_target unit) = START /\
   (exists e, e ∈ edges (start_without_target unit) /\
              source_node e = START) /\
   items (stream (start_without_target unit) ∅ 1 tt).1 = []) /\
  (validate (start_condition_raises unit) = Ok true /\
   entry_node (start_condition_raises unit) = START /\
   (exists e, e ∈ edges (start_condition_raises unit) /\
              source_node e = START) /\
   items (stream (start_condition_raises unit) ∅ 1 tt).1 = []) /\
  (validate (finish_at_start unit) = Ok true /\
   entry_node (finish_at_start unit) = START /\
   (exists e, e ∈ edges (finish_at_start unit) /\ source_node e = START) /\
   items (stream (finish_at_start unit) ∅ 1 tt).1 = [(START, ∅)]).
Proof.
  split; [|split]; (split; [vm_compute; reflexivity|]);
    (split; [reflexivity|]); (split; [|vm_compute; reflexivity]);
    eexists; (split; [left | reflexivity]).
Qed.

(** ** The scenarios of the specification *)

(** Conditional routing: [invoke({"input": "hi"})] goes through the short
    handler and never calls the long one. *)
Example routing_scenario :
  let run := (execute_run (routing unit) {["input" := VStr "hi"]} 100 tt).1 in
  validate (routing unit) = Ok true /\
  run.2 = ReachedExit /\
  (calls run.1).*1 = ["check"; "short_handler"] /\
  visited run.1 = [START; "check"; "short_handler"; END] /\
  (invoke (routing unit) {["input" := VStr "hi"]} 100 tt).1
    = {["input" := VStr "hi"; "length" := VInt 2;
        "output" := VStr "Short: hi"]}.
Proof. vm_compute. repeat split. Qed.

(** Dangling references: [validate] reports the first one only, here the
    entry point although two edges are wrong too; once the entry point is
    repaired the missing edge target is reported by name. *)
Example dangling_scenario :
  violations (dangling_refs unit)
    = [BadEntry "nowhere"; BadTarget "ghost"; BadSource "ghost"] /\
  validate (dangling_refs unit)
    = Exc (ValueError "Entry point nowhere not found") /\
  compile (set_entry_point (dangling_refs unit) START)
    = Exc (ValueError "Edge target ghost not found").
Proof. vm_compute. repeat split. Qed.

(** A node that raises in the middle: [stream] reports it and goes on to
    [END]; [execute] stops at it. *)
Example failing_scenario :
  items (stream (failing unit) ∅ 100 tt).1
    = [(START, {["next_node" := VStr "a"]});
       ("a", {["error" := VStr "boom"]});
       ("b", {["b" := VInt 1]});
       (END, {["b" := VInt 1]})] /\
  (execute (failing unit) ∅ 100 tt).1
    = mkResult ∅ [] 2 (Some "Node a failed: boom") false.
Proof. vm_compute. split; reflexivity. Qed.

(** Routing may also run dry on the very last iteration the budget allows:
    the counter then equals the budget although the budget was not what
    stopped the loop. *)
Example dead_end_on_last_iteration :
  (execute_run (dead_end unit) ∅ 2 tt).1.2 = NoNextNode /\
  iterations (execute (dead_end unit) ∅ 2 tt).1 = 2.
Proof. vm_compute. split; reflexivity. Qed.

(** * Further properties of the engine *)

Section LoopInvariants.

Variable W : Type.
Implicit Types (net : WorkflowNetwork W) (l : Locals) (w : W) (h : halt)
               (state : StateDict).

Lemma dict_update_empty state : dict_update state ∅ = state.
Proof. unfold dict_update. apply (left_id_L ∅ (∪)). Qed.

(** The test [if updates:] only skips a merge that would change nothing. *)
Lemma dict_update_guarded state (updates : StateDict) :
  (if dict_truthy updates then dict_update state updates else state)
  = dict_update state updates.
Proof.
  unfold dict_truthy. destruct (decide (updates = ∅)) as [->|Hne].
  - rewrite bool_decide_eq_true_2 by done. simpl.
    by rewrite dict_update_empty.
  - by rewrite bool_decide_eq_false_2.
Qed.

(** The node block of [execute], case by case. *)
Lemma execute_node_cases net l w l' oe w' :
  execute_node net l w = (l', oe, w') ->
  (nodes net !! current_node l = None /\ l' = l /\ oe = None /\ w' = w) \/
  exists node r,
    nodes net !! current_node l = Some node /\
    Node_call node (current_state l) w = (r, w') /\
    calls l' = calls l ++ [(current_node l, r)] /\
    current_node l' = current_node l /\ iteration l' = iteration l /\
    visited l' = visited l /\
    match r with
    | Ok updates =>
        oe = None /\
        current_state l' = dict_update (current_state l) updates /\
        steps l' = steps l ++ [mkStep (current_node l) (Some (current_state l))
                                      (Some (current_state l')) None]
    | Exc x =>
        oe = Some (node_failure (current_node l) x,
                   mkStep (current_node l) (Some (current_state l)) None
                          (Some (str x))) /\
        current_state l' = current_state l /\ steps l' = steps l
    end.
Proof.
  unfold execute_node. intros H.
  destruct (nodes net !! current_node l) as [node|] eqn:Hlook.
  - right. exists node.
    destruct (Node_call node (current_state l) w) as [[u|x] w1] eqn:Hcall;
      inversion H; subst; clear H; simpl.
    + exists (Ok u). rewrite dict_update_guarded. by repeat split.
    + exists (Exc x). by repeat split.
  - left. by inversion H.
Qed.

(** The node block of [stream], case by case. *)
Lemma stream_node_step_cases net (cur : string) state w item state' w' :
  stream_node_step net cur state w = (item, state', w') ->
  (nodes net !! cur = None /\ item = None /\ state' = state /\ w' = w) \/
  exists node r,
    nodes net !! cur = Some node /\
    Node_call node state w = (r, w') /\
    match r with
    | Ok updates =>
        item = Some (cur, updates) /\ state' = dict_update state updates
    | Exc x =>
        item = Some (cur, {["error" := VStr (str x)]}) /\ state' = state
    end.
Proof.
  unfold stream_node_step. intros H.
  destruct (nodes net !! cur) as [node|] eqn:Hlook.
  - right. exists node.
    destruct (Node_call node state w) as [[u|x] w1] eqn:Hcall.
    + exists (Ok u). unfold dict_truthy in H.
      destruct (decide (u = ∅)) as [->|Hne].
      * rewrite bool_decide_eq_true_2 in H by done. simpl in H.
        inversion H; subst. by rewrite dict_update_empty.
      * rewrite bool_decide_eq_false_2 in H by done. simpl in H.
        by inversion H; subst.
    + exists (Exc x). by inversion H; subst.
  - left. by inversion H.
Qed.

(** A property of the locals that every part of the loop body keeps holds
    when [execute] leaves its loop. *)
Lemma execute_loop_invariant net (P : Locals -> Prop) :
  (forall l, P l -> P (tick l)) ->
  (forall l (n : string) w w',
     P l ->
     get_next_node (edges net) (current_node l) (current_state l) w
       = (Ok (Some n), w') ->
     P (goto l n)) ->
  (forall l w l' oe w',
     P l -> current_node l <> exit_node net -> current_node l <> START ->
     execute_node net (tick l) w = (l', oe, w') -> P l') ->
  forall budget l w l' h w',
    execute_loop net budget l w = (l', h, w') -> P l -> P l'.
Proof.
  intros Htick Hgoto Hnode.
  induction budget as [|budget IH]; intros l w l' h w' H HP; simpl in H.
  - destruct (String.eqb _ _); by inversion H; subst.
  - destruct (String.eqb_spec (current_node l) (exit_node net)) as [|Hexit];
      [by inversion H; subst|].
    destruct (String.eqb_spec (current_node l) START) as [Hstart|Hstart].
    + destruct (get_next_node (edges net) START (current_state l) w)
        as [[[n|]|x] w1] eqn:Hnext;
        [|inversion H; subst; auto..].
      destruct (str_truthy n); [|inversion H; subst; auto].
      apply IH in H; [done|].
      apply (Hgoto (tick l) n w w1); [auto|]. simpl. by rewrite Hstart.
    + destruct (execute_node net (tick l) w) as [[l1 oe] w1] eqn:Hstep.
      assert (HP1 : P l1) by eauto.
      destruct oe as [[x step]|]; [by inversion H; subst|].
      destruct (get_next_node (edges net) (current_node l1)
                              (current_state l1) w1)
        as [[[n|]|x] w2] eqn:Hnext;
        [|inversion H; subst; auto..].
      apply IH in H; [done|]. eauto.
Qed.

End LoopInvariants.

Section ExecuteInvariants.

Variable W : Type.
Implicit Types (net : WorkflowNetwork W) (l : Locals) (w : W) (h : halt)
               (state : StateDict).

Lemma make_result_fields net l h :
  final_state (make_result net l h) = current_state l /\
  result_steps (make_result net l h) = steps l /\
  iterations (make_result net l h) = iteration l.
Proof. by destruct h. Qed.

(** X1. [execute] never runs more iterations than [max_iterations] allows
    (none when it is negative), and it never returns more steps than it
    ran iterations. *)
Theorem execute_bounded net (initial_state : StateDict)
    (max_iterations : Z) w :
  let r := (execute net initial_state max_iterations w).1 in
  length (result_steps r) <= iterations r /\
  (Z.of_nat (iterations r) <= Z.max 0 max_iterations)%Z.
Proof.
  unfold execute, execute_run.
  destruct (execute_loop _ _ _ _) as [[l h] w'] eqn:Hloop. simpl.
  destruct (make_result_fields net l h) as (_ & -> & ->).
  split.
  - apply (execute_loop_invariant W net
             (fun l => length (steps l) <= iteration l)) in Hloop;
      [done | simpl; lia | done | | simpl; lia].
    intros l0 w0 l1 oe w1 HP _ _ Hstep.
    apply execute_node_cases in Hstep
      as [(_ & -> & _)|(node & r & _ & _ & _ & _ & Hit & _ & Hr)];
      [simpl; lia|].
    rewrite Hit. simpl.
    destruct r as [u|x]; [destruct Hr as (_ & _ & ->)|destruct Hr as (_ & _ & ->)];
      rewrite ?length_app; simpl; lia.
  - apply execute_loop_halt in Hloop as [Hle _]. simpl in Hle. lia.
Qed.

(** X2. [completed] is true exactly when the loop of [execute] stopped
    because the current node was the exit node; the result then has no
    error and the last node the traversal moved to is the exit node. *)
Theorem execute_completed_iff net (initial_state : StateDict)
    (max_iterations : Z) w :
  let run := (execute_run net initial_state max_iterations w).1 in
  let r := (execute net initial_state max_iterations w).1 in
  (completed r = true <-> run.2 = ReachedExit) /\
  (completed r = true ->
     error r = None /\ last (visited run.1) = Some (exit_node net)).
Proof.
  unfold execute, execute_run.
  destruct (execute_loop _ _ _ _) as [[l h] w'] eqn:Hloop. simpl.
  pose proof (execute_loop_halt _ _ _ _ _ _ _ _ Hloop) as [_ Hh].
  assert (Hlast : last (visited l) = Some (current_node l)).
  { apply (execute_loop_invariant W net
             (fun l => last (visited l) = Some (current_node l))) in Hloop;
      [done | done | | | done].
    - intros l0 n _ _ _ _. simpl. apply last_snoc.
    - intros l0 w0 l1 oe w1 HP _ _ Hstep.
      apply execute_node_cases in Hstep
        as [(_ & -> & _)|(node & r & _ & _ & _ & -> & _ & -> & _)]; done. }
  assert (Hiff : completed (make_result net l h) = true <-> h = ReachedExit).
  { destruct h; simpl.
    - rewrite Hh, String.eqb_refl. done.
    - destruct Hh as [Hne _]. apply String.eqb_neq in Hne. by rewrite Hne.
    - destruct Hh as [Hne _]. apply String.eqb_neq in Hne. by rewrite Hne.
    - done. }
  split; [exact Hiff|].
  intros Hdone. apply Hiff in Hdone as ->. simpl.
  split; [done|]. by rewrite Hlast, Hh.
Qed.

Lemma chained_snoc (first mid last : StateDict) (ss : list ExecutionStep)
    (n : string) (err : option string) :
  chained first ss mid ->
  chained first (ss ++ [mkStep n (Some mid) (Some last) err]) last.
Proof.
  revert first. induction ss as [|s ss IH]; intros first; simpl.
  - intros ->. eauto.
  - intros (Hb & next & Ha & Hrest). split; [done|]. eauto.
Qed.

(** X3. The steps [execute] returns form an unbroken trail: the first
    step starts in the initial state, every step starts in the state the
    previous one ended in, and the last one ends in [final_state]; this
    also holds for a run that stopped on an error, whose [final_state] is
    the state the failing node was given. *)
Theorem execute_steps_chained net (initial_state : StateDict)
    (max_iterations : Z) w :
  let r := (execute net initial_state max_iterations w).1 in
  chained initial_state (result_steps r) (final_state r).
Proof.
  unfold execute, execute_run.
  destruct (execute_loop _ _ _ _) as [[l h] w'] eqn:Hloop. simpl.
  destruct (make_result_fields net l h) as (-> & -> & _).
  apply (execute_loop_invariant W net
           (fun l => chained initial_state (steps l) (current_state l)))
    in Hloop; [done | done | done | | done].
  intros l0 w0 l1 oe w1 HP _ _ Hstep.
  apply execute_node_cases in Hstep
    as [(_ & -> & _)|(node & r & _ & _ & _ & _ & _ & _ & Hr)]; [done|].
  destruct r as [u|x].
  - destruct Hr as (_ & _ & ->). by apply chained_snoc.
  - destruct Hr as (_ & -> & ->). done.
Qed.

(** X5. [execute] only ever calls registered nodes, and never the one
    registered under [START] or under the exit node: this holds for every
    call it makes and for every step it returns. *)
Theorem execute_calls_registered net (initial_state : StateDict)
    (max_iterations : Z) w :
  let run := (execute_run net initial_state max_iterations w).1.1 in
  let r := (execute net initial_state max_iterations w).1 in
  let callable (n : string) :=
    n <> START /\ n <> exit_node net /\ is_Some (nodes net !! n) in
  Forall (fun c => callable c.1) (calls run) /\
  Forall (fun s => callable (step_node_id s)) (result_steps r).
Proof.
  pose proof (execute_steps_clean W net initial_state max_iterations w)
    as [_ Hids].
  revert Hids. unfold execute, execute_run.
  destruct (execute_loop _ _ _ _) as [[l h] w'] eqn:Hloop. simpl.
  destruct (make_result_fields net l h) as (_ & -> & _).
  intros Hids.
  assert (Hcalls : Forall (fun c : string * result StateDict =>
             c.1 <> START /\ c.1 <> exit_node net /\
             is_Some (nodes net !! c.1)) (calls l)).
  { apply (execute_loop_invariant W net
             (fun l => Forall (fun c : string * result StateDict =>
                c.1 <> START /\ c.1 <> exit_node net /\
                is_Some (nodes net !! c.1)) (calls l))) in Hloop;
      [done | done | done | | by constructor].
    intros l0 w0 l1 oe w1 HP Hexit Hstart Hstep.
    apply execute_node_cases in Hstep
      as [(_ & -> & _)|(node & r & Hlook & _ & -> & _)]; [done|].
    apply Forall_app. split; [done|].
    constructor; [|constructor]. simpl in *. eauto. }
  split; [exact Hcalls|].
  apply Forall_fmap with (f := step_node_id)
                         (P := fun n => n <> START /\ n <> exit_node net /\
                                        is_Some (nodes net !! n)).
  rewrite Hids. apply Forall_fmap.
  apply Forall_forall. intros c Hc.
  apply list_elem_of_filter in Hc as [_ Hc].
  rewrite Forall_forall in Hcalls. by apply Hcalls.
Qed.

(** X6. The final state of [execute] is the initial state with the
    updates of the calls that returned merged in, in call order, later
    updates overwriting earlier ones key by key. *)
Theorem execute_final_state_merged net (initial_state : StateDict)
    (max_iterations : Z) w :
  let run := (execute_run net initial_state max_iterations w).1.1 in
  let r := (execute net initial_state max_iterations w).1 in
  final_state r = foldl merge_call initial_state (calls run).
Proof.
  unfold execute, execute_run.
  destruct (execute_loop _ _ _ _) as [[l h] w'] eqn:Hloop. simpl.
  destruct (make_result_fields net l h) as (-> & _).
  apply (execute_loop_invariant W net
           (fun l => current_state l
                     = foldl merge_call initial_state (calls l)))
    in Hloop; [done | done | done | | done].
  intros l0 w0 l1 oe w1 HP _ _ Hstep.
  apply execute_node_cases in Hstep
    as [(_ & -> & _)|(node & r & _ & _ & -> & _ & _ & _ & Hr)]; [done|].
  rewrite foldl_app. simpl in *. rewrite <- HP. unfold merge_call. simpl.
  destruct r as [u|x]; by destruct Hr as (_ & -> & _).
Qed.

End ExecuteInvariants.

Section BudgetAndStream.

Variable W : Type.
Implicit Types (net : WorkflowNetwork W) (l : Locals) (w : W) (h : halt)
               (state : StateDict).

Lemma dom_dict_update state (updates : StateDict) :
  dom state ⊆ dom (dict_update state updates).
Proof. unfold dict_update. rewrite dom_union_L. set_solver. Qed.

Lemma stream_loop_keys net budget : forall (cur : string) state w,
  dom state ⊆ dom (stream_state (stream_loop net budget cur state w).1).
Proof.
  induction budget as [|budget IH]; intros cur state w; simpl.
  - by destruct (String.eqb cur (exit_node net)).
  - destruct (String.eqb cur (exit_node net)); [done|].
    destruct (String.eqb cur START).
    + destruct (get_next_node (edges net) START state w) as [[[n|]|e] w'];
        [|done..].
      destruct (str_truthy n); [apply IH | done].
    + destruct (stream_node_step net cur state w) as [[item state'] w']
        eqn:Hstep.
      assert (Hsub : dom state ⊆ dom state').
      { apply stream_node_step_cases in Hstep
          as [(_ & _ & -> & _)|(node & r & _ & _ & Hr)]; [done|].
        destruct r as [u|x]; destruct Hr as [_ ->];
          [apply dom_dict_update | done]. }
      assert (Hitem : forall r : StreamRun * W,
                 stream_state (yield_opt item r).1 = stream_state r.1).
      { intros r. by destruct item. }
      rewrite Hitem.
      destruct (get_next_node (edges net) cur state' w') as [[[n|]|e] w''];
        [|done..].
      etrans; [exact Hsub | apply IH].
Qed.

(** X4. Neither [execute] nor [stream] ever removes a key: every key of
    the initial state is still a key of the state they end with. *)
Theorem state_keys_kept net (initial_state : StateDict)
    (max_iterations : Z) w :
  dom initial_state
    ⊆ dom (final_state (execute net initial_state max_iterations w).1) /\
  dom initial_state
    ⊆ dom (stream_state (stream net initial_state max_iterations w).1).
Proof.
  split.
  - unfold execute, execute_run.
    destruct (execute_loop _ _ _ _) as [[l h] w'] eqn:Hloop. simpl.
    destruct (make_result_fields W net l h) as (-> & _).
    apply (execute_loop_invariant W net
             (fun l => dom initial_state ⊆ dom (current_state l)))
      in Hloop; [done | done | done | | done].
    intros l0 w0 l1 oe w1 HP _ _ Hstep.
    apply execute_node_cases in Hstep
      as [(_ & -> & _)|(node & r & _ & _ & _ & _ & _ & _ & Hr)]; [done|].
    destruct r as [u|x].
    + destruct Hr as (_ & -> & _). etrans; [exact HP|].
      apply dom_dict_update.
    + by destruct Hr as (_ & -> & _).
  - destruct (stream_items W net initial_state max_iterations w)
      as (_ & _ & -> & _).
    apply stream_loop_keys.
Qed.

Lemma execute_loop_budget_stable net budget : forall l w l' h w',
  execute_loop net budget l w = (l', h, w') ->
  h <> BudgetExhausted ->
  forall budget', budget <= budget' ->
  execute_loop net budget' l w = (l', h, w').
Proof.
  induction budget as [|budget IH]; intros l w l' h w' H Hh budget' Hle.
  - simpl in H. destruct (String.eqb (current_node l) (exit_node net)) eqn:He.
    + destruct budget'; simpl; by rewrite He.
    + by inversion H; subst.
  - destruct budget' as [|budget']; [lia|].
    simpl in *.
    destruct (String.eqb (current_node l) (exit_node net)); [done|].
    destruct (String.eqb (current_node l) START).
    + destruct (get_next_node (edges net) START (current_state l) w)
        as [[[n|]|x] w1]; [|done..].
      destruct (str_truthy n); [|done]. apply IH; [done | done | lia].
    + destruct (execute_node net (tick l) w) as [[l1 [[x step]|]] w1];
        [done|].
      destruct (get_next_node (edges net) (current_node l1)
                              (current_state l1) w1)
        as [[[n|]|x] w2]; [|done..].
      apply IH; [done | done | lia].
Qed.

(** X7. A run of [execute] that was not stopped by its iteration budget
    does not depend on it: with any larger [max_iterations] the result is
    the same. *)
Theorem execute_budget_stable net (initial_state : StateDict)
    (max_iterations max_iterations' : Z) w :
  (execute_run net initial_state max_iterations w).1.2 <> BudgetExhausted ->
  (max_iterations <= max_iterations')%Z ->
  execute net initial_state max_iterations' w
  = execute net initial_state max_iterations w.
Proof.
  unfold execute, execute_run.
  destruct (execute_loop net (Z.to_nat max_iterations) _ w)
    as [[l h] w'] eqn:Hloop.
  simpl. intros Hh Hle.
  by rewrite (execute_loop_budget_stable _ _ _ _ _ _ _ Hloop Hh
                (Z.to_nat max_iterations') ltac:(lia)).
Qed.

(** As long as no exception leaves the loop of [execute], the loop of
    [stream] takes the same route through the same states. *)
Lemma execute_stream_loops net budget : forall l w l' h w',
  execute_loop net budget l w = (l', h, w') ->
  (forall x, h <> Raised x) ->
  let r := stream_loop net budget (current_node l) (current_state l) w in
  r.2 = w' /\ stream_node r.1 = current_node l' /\
  stream_state r.1 = current_state l' /\ stream_halt r.1 = h.
Proof.
  induction budget as [|budget IH]; intros l w l' h w' H Hh; simpl in *.
  - destruct (String.eqb (current_node l) (exit_node net));
      by inversion H; subst.
  - destruct (String.eqb (current_node l) (exit_node net));
      [by inversion H; subst|].
    destruct (String.eqb (current_node l) START).
    + destruct (get_next_node (edges net) START (current_state l) w)
        as [[[n|]|x] w1];
        [| by inversion H; subst | inversion H; subst; by destruct (Hh x)].
      destruct (str_truthy n); [|by inversion H; subst].
      apply IH in H; [|done]. exact H.
    + destruct (execute_node net (tick l) w) as [[l1 oe] w1] eqn:Hstep.
      apply execute_node_cases in Hstep as [(Hlook & -> & -> & Hw)|Hstep].
      * subst w1. unfold stream_node_step. simpl in Hlook, H.
        rewrite Hlook. simpl.
        destruct (get_next_node (edges net) (current_node l)
                                (current_state l) w)
          as [[[n|]|x] w2];
          [| by inversion H; subst | inversion H; subst; by destruct (Hh x)].
        apply IH in H; [|done]. exact H.
      * destruct Hstep as (node & r & Hlook & Hcall & _ & Hcur & _ & _ & Hr).
        simpl in Hlook, Hcall, Hcur, Hr.
        destruct r as [u|x];
          [|destruct Hr as (-> & _); inversion H; subst;
            by destruct (Hh (node_failure (current_node l) x))].
        destruct Hr as (-> & Hst & _).
        destruct (stream_node_step net (current_node l) (current_state l) w)
          as [[item state'] w1'] eqn:Hs.
        apply stream_node_step_cases in Hs
          as [(Hnone & _)|(node' & r' & Hlook' & Hcall' & Hr')];
          [congruence|].
        rewrite Hlook in Hlook'. inversion Hlook'; subst node'.
        rewrite Hcall in Hcall'. inversion Hcall'; subst r' w1'.
        destruct Hr' as [-> ->]. rewrite <- Hst, <- Hcur. simpl.
        destruct (get_next_node (edges net) (current_node l1)
                                (current_state l1) w1)
          as [[[n|]|x] w2];
          [| by inversion H; subst | inversion H; subst; by destruct (Hh x)].
        apply IH in H; [|done]. exact H.
Qed.

(** X8. When [execute] returns without error, [stream] on the same input
    ends in the same state and leaves the outside world as [execute]
    does; and when [execute] completed, the last item of [stream] is the
    exit node with the final state of [execute]. *)
Theorem execute_stream_agree net (initial_state : StateDict)
    (max_iterations : Z) w :
  let r := (execute net initial_state max_iterations w).1 in
  let s := (stream net initial_state max_iterations w).1 in
  error r = None ->
  stream_state s = final_state r /\
  (stream net initial_state max_iterations w).2
    = (execute net initial_state max_iterations w).2 /\
  (completed r = true -> last (items s) = Some (exit_node net, final_state r)).
Proof.
  unfold execute, execute_run, stream.
  destruct (execute_loop _ _ _ _) as [[l h] w'] eqn:Hloop. simpl.
  intros Herr.
  assert (Hh : forall x, h <> Raised x).
  { intros x ->. discriminate Herr. }
  apply execute_stream_loops in Hloop; [|exact Hh]. simpl in Hloop.
  destruct (stream_loop _ _ _ _ _) as [sr sw].
  destruct Hloop as (Hw & Hnode & Hstate & Hhalt). simpl in *.
  destruct (make_result_fields W net l h) as (-> & _).
  assert (Hdone : completed (make_result net l h)
                  = String.eqb (current_node l) (exit_node net)).
  { by destruct h. }
  rewrite Hdone, Hnode.
  destruct (String.eqb (current_node l) (exit_node net)); simpl.
  - repeat split; [done..|]. intros _. by rewrite last_snoc, Hstate.
  - by repeat split.
Qed.

Lemma stream_loop_items net budget : forall (cur : string) state w,
  let r := (stream_loop net budget cur state w).1 in
  length (items r) <= budget /\
  Forall (fun item => item.1 <> exit_node net) (items r).
Proof.
  induction budget as [|budget IH]; intros cur state w; simpl.
  - destruct (String.eqb cur (exit_node net)); simpl; split;
      (lia || constructor).
  - destruct (String.eqb_spec cur (exit_node net)) as [|Hexit];
      [simpl; split; (lia || constructor)|].
    destruct (String.eqb_spec cur START) as [Hstart|Hstart].
    + destruct (get_next_node (edges net) START state w) as [[[n|]|e] w'];
        try (simpl; split; (lia || constructor)).
      destruct (str_truthy n); [|simpl; split; (lia || constructor)].
      destruct (IH n state w') as [Hlen Hall]. simpl. split; [lia|].
      constructor; [simpl; congruence | done].
    + destruct (stream_node_step net cur state w) as [[item state'] w']
        eqn:Hstep.
      assert (Hitem : forall i, item = Some i -> i.1 = cur).
      { apply stream_node_step_cases in Hstep
          as [(_ & -> & _)|(node & r & _ & _ & Hr)]; [done|].
        destruct r as [u|x]; destruct Hr as [-> _];
          intros i Hi; by inversion Hi. }
      assert (Hyield : forall r : StreamRun * W,
                 length (items r.1) <= budget ->
                 Forall (fun item => item.1 <> exit_node net) (items r.1) ->
                 length (items (yield_opt item r).1) <= S budget /\
                 Forall (fun item => item.1 <> exit_node net)
                        (items (yield_opt item r).1)).
      { intros r Hlen Hall. destruct item as [i|]; simpl; [|split; [lia|done]].
        split; [lia|]. constructor; [|done]. by rewrite (Hitem i). }
      destruct (get_next_node (edges net) cur state' w') as [[[n|]|e] w''];
        apply Hyield; simpl; try lia; try constructor; apply IH.
Qed.

(** X9. [stream] yields at most one item per iteration it is allowed,
    plus the final item: never more than [max_iterations + 1] items (one
    at most when [max_iterations] is not positive). *)
Theorem stream_length_bounded net (initial_state : StateDict)
    (max_iterations : Z) w :
  (Z.of_nat (length (items (stream net initial_state max_iterations w).1))
   <= Z.max 0 max_iterations + 1)%Z.
Proof.
  destruct (stream_items W net initial_state max_iterations w) as (-> & _).
  destruct (stream_loop_items net (Z.to_nat max_iterations)
              (entry_node net) initial_state w) as [Hlen _].
  simpl in *. rewrite length_app.
  destruct (String.eqb _ _); simpl; lia.
Qed.

(** X10. An item of [stream] that names the exit node is the final item
    and carries the final state: no item yielded during the traversal
    names the exit node. *)
Theorem stream_exit_item_last net (initial_state : StateDict)
    (max_iterations : Z) w
    (pre post : list (string * StateDict)) (item : string * StateDict) :
  let s := (stream net initial_state max_iterations w).1 in
  items s = pre ++ item :: post ->
  item.1 = exit_node net ->
  post = [] /\ item = (exit_node net, stream_state s) /\
  stream_halt s = ReachedExit.
Proof.
  destruct (stream_items W net initial_state max_iterations w)
    as (Hitems & Hnode & Hstate & Hhalt).
  pose proof (stream_loop_halt W net (Z.to_nat max_iterations)
                (entry_node net) initial_state w) as Hreach.
  destruct (stream_loop_items net (Z.to_nat max_iterations)
              (entry_node net) initial_state w) as [_ Hall].
  simpl in *. rewrite Hitems, Hstate, Hhalt. clear Hitems Hnode Hstate Hhalt.
  set (r := (stream_loop net (Z.to_nat max_iterations) (entry_node net)
                         initial_state w).1) in *.
  intros Hsplit Hexit.
  assert (Hnotin : forall xs ys : list (string * StateDict),
             items r = xs ++ item :: ys -> False).
  { intros xs ys Heq. rewrite Heq in Hall.
    apply Forall_app in Hall as [_ Hall]. inversion Hall; subst. done. }
  destruct (String.eqb_spec (stream_node r) (exit_node net)) as [Heq|Hne].
  - destruct post as [|p post] using rev_ind.
    + apply app_inj_tail in Hsplit as [_ <-].
      repeat split. destruct (stream_halt r); done.
    + clear IHpost. exfalso.
      rewrite app_comm_cons, app_assoc in Hsplit.
      apply app_inj_tail in Hsplit as [Hsplit _]. eauto.
  - rewrite app_nil_r in Hsplit. exfalso. eauto.
Qed.

End BudgetAndStream.

Section BuilderProperties.

Variable W : Type.
Implicit Types (net : WorkflowNetwork W) (e : Edge W).

Lemma dangling_false net (sentinel x : string) :
  dangling net sentinel x = false <->
  x = sentinel \/ is_Some (nodes net !! x).
Proof.
  unfold dangling.
  destruct (String.eqb_spec x sentinel) as [->|Hne]; simpl; [tauto|].
  destruct (nodes net !! x) as [n|]; split; try done; eauto.
  intros [?|[? ?]]; done.
Qed.

Lemma check_edge_None net e :
  check_edge net e = None <->
  dangling net START (source_node e) = false /\
  forall t, target_node e = Some t -> str_truthy t = true ->
            dangling net END t = false.
Proof.
  unfold check_edge. rewrite not_found_dangling.
  destruct (dangling net START (source_node e)); [split; [done|by intros []]|].
  destruct (target_node e) as [t|]; [|split; [split; done | done]].
  rewrite not_found_dangling.
  destruct (str_truthy t) eqn:Ht, (dangling net END t) eqn:Hd; simpl; split;
    try done;
    try (intros _; split; [done|]; intros t0 [= <-] Ht0; congruence).
  intros [_ H]. specialize (H t eq_refl Ht). congruence.
Qed.

Lemma validate_edges_app net (es es' : list (Edge W)) :
  validate_edges net (es ++ es') =
  match validate_edges net es with
  | Ok _ => validate_edges net es'
  | Exc x => Exc x
  end.
Proof.
  induction es as [|e es IH]; simpl; [done|].
  by destruct (check_edge net e).
Qed.

Lemma validate_edges_Ok net (es : list (Edge W)) :
  validate_edges net es = Ok true <->
  forall e, e ∈ es -> check_edge net e = None.
Proof.
  induction es as [|e es IH]; simpl.
  - split; [intros _ e He; by apply elem_of_nil in He | done].
  - destruct (check_edge net e) eqn:Hc.
    + split; [done|]. intros H. specialize (H e). rewrite Hc in H.
      discriminate H. left.
    + rewrite IH. split.
      * intros H e' He'. apply elem_of_cons in He' as [->|He']; auto.
      * intros H e' He'. apply H. by right.
Qed.

(** [validate] never answers [False]: it returns [True] or raises. *)
Lemma validate_edges_result net (es : list (Edge W)) (b : bool) :
  validate_edges net es = Ok b -> b = true.
Proof.
  induction es as [|e es IH]; simpl; [by intros [= <-]|].
  by destruct (check_edge net e).
Qed.

(** The checks depend on the node table only. *)
Lemma validate_edges_nodes net net' (es : list (Edge W)) :
  nodes net' = nodes net -> validate_edges net' es = validate_edges net es.
Proof.
  intros Hn. induction es as [|e es IH]; simpl; [done|].
  assert (Hc : check_edge net' e = check_edge net e).
  { unfold check_edge, not_found, node_keys. by rewrite Hn. }
  by rewrite Hc, IH.
Qed.

Lemma validate_Ok_iff net : validate net = Ok true <-> well_formed net.
Proof.
  unfold validate, well_formed. rewrite !not_found_dangling.
  destruct (dangling net START (entry_node net)); [split; [done|by intros []]|].
  destruct (dangling net END (exit_node net));
    [split; [done|by intros (_ & ? & _)]|].
  rewrite validate_edges_Ok. split.
  - intros H. repeat split; try done; by apply check_edge_None, H.
  - intros (_ & _ & H) e He. apply check_edge_None. by apply H.
Qed.

(** Validating a network with one more edge. *)
Lemma validate_with_edge net e :
  validate (with_edge net e) =
  match validate net with
  | Ok _ =>
      match check_edge net e with Some err => Exc err | None => Ok true end
  | Exc x => Exc x
  end.
Proof.
  unfold validate.
  change (not_found (with_edge net e)) with (not_found net).
  change (entry_node (with_edge net e)) with (entry_node net).
  change (exit_node (with_edge net e)) with (exit_node net).
  destruct (not_found net START (entry_node net)); [done|].
  destruct (not_found net END (exit_node net)); [done|].
  change (edges (with_edge net e)) with (edges net ++ [e]).
  rewrite (validate_edges_nodes net (with_edge net e)) by done.
  rewrite validate_edges_app. simpl.
  destruct (validate_edges net (edges net)); [|done].
  by destruct (check_edge net e).
Qed.

(** X12. [validate] never looks at the target map of a conditional edge:
    after [add_conditional_edge] the network validates exactly when it
    did before and the source of the new edge is [START] or a registered
    node, whatever ids the map sends the routing keys to. *)
Theorem validate_add_conditional_edge net (source : string)
    (cond : EdgeCondition W) (target_map : gmap string string) :
  validate (add_conditional_edge net source cond target_map) =
  match validate net with
  | Ok _ =>
      if dangling net START source
      then Exc (ValueError ("Edge source " +:+ source +:+ " not found"))
      else Ok true
  | Exc x => Exc x
  end.
Proof.
  change (add_conditional_edge net source cond target_map)
    with (with_edge net
            (Edge_init source None (Some (routed_condition cond target_map)))).
  rewrite validate_with_edge. unfold check_edge. simpl.
  rewrite not_found_dangling.
  by destruct (validate net), (dangling net START source).
Qed.

(** X14. After [add_edge(source, target)] the network validates exactly
    when it did before, [source] is [START] or a registered node, and
    [target] is empty, [END] or a registered node; otherwise [validate]
    raises the error of the network as it was, or else the one naming the
    source, or else the one naming the target. *)
Theorem validate_add_edge net (source target : string) :
  validate (add_edge net source target) =
  match validate net with
  | Ok _ =>
      if dangling net START source
      then Exc (ValueError ("Edge source " +:+ source +:+ " not found"))
      else if str_truthy target && dangling net END target
      then Exc (ValueError ("Edge target " +:+ target +:+ " not found"))
      else Ok true
  | Exc x => Exc x
  end.
Proof.
  change (add_edge net source target)
    with (with_edge net (Edge_init source (Some target) None)).
  rewrite validate_with_edge. unfold check_edge. simpl.
  rewrite !not_found_dangling.
  destruct (validate net); [|done].
  destruct (dangling net START source); [done|].
  by destruct (str_truthy target && dangling net END target).
Qed.

Lemma dangling_add_node net (id : string) (f : NodeFunction W)
    (sentinel x : string) :
  dangling net sentinel x = false ->
  dangling (add_node net id f) sentinel x = false.
Proof.
  rewrite !dangling_false. intros [->|[n Hn]]; [by left|]. right. simpl.
  destruct (decide (id = x)) as [->|Hne].
  - rewrite lookup_insert_eq. eauto.
  - rewrite lookup_insert_ne by done. eauto.
Qed.

(** X13. Registering a node never invalidates a network: if [validate]
    succeeds, it still succeeds after [add_node], also when the new node
    replaces one of the same id. *)
Theorem validate_add_node net (id : string) (f : NodeFunction W) :
  validate net = Ok true -> validate (add_node net id f) = Ok true.
Proof.
  rewrite !validate_Ok_iff. intros (Hentry & Hexit & Hedges).
  split; [by apply dangling_add_node|].
  split; [by apply dangling_add_node|].
  intros e He. destruct (Hedges e He) as [Hsrc Htgt].
  split; [by apply dangling_add_node|].
  intros t Ht Htruthy. apply dangling_add_node. eauto.
Qed.

(** X15. On a network that validates, [set_entry_point(id)] keeps it
    valid exactly when [id] is [START] or a registered node, and
    [set_finish_point(id)] exactly when [id] is [END] or a registered
    node; otherwise [validate] raises the error naming [id]. *)
Theorem validate_set_points net (id : string) :
  validate net = Ok true ->
  validate (set_entry_point net id) =
    (if dangling net START id
     then Exc (ValueError ("Entry point " +:+ id +:+ " not found"))
     else Ok true) /\
  validate (set_finish_point net id) =
    (if dangling net END id
     then Exc (ValueError ("Exit point " +:+ id +:+ " not found"))
     else Ok true).
Proof.
  unfold validate.
  change (not_found (set_entry_point net id)) with (not_found net).
  change (not_found (set_finish_point net id)) with (not_found net).
  simpl.
  rewrite (validate_edges_nodes net (set_entry_point net id)) by done.
  rewrite (validate_edges_nodes net (set_finish_point net id)) by done.
  rewrite <- !not_found_dangling.
  destruct (not_found net START (entry_node net)); [done|].
  destruct (not_found net END (exit_node net)); [done|].
  intros ->.
  by destruct (not_found net START id), (not_found net END id).
Qed.

End BuilderProperties.

Section RoutingMore.

Variable W : Type.
Implicit Types (net : WorkflowNetwork W) (e : Edge W) (es : EdgeSet W)
               (state : StateDict) (w : W).

Lemma find_app_split {A} (P : A -> bool) (xs ys : list A) :
  List.find P (xs ++ ys) =
  match List.find P xs with Some x => Some x | None => List.find P ys end.
Proof.
  induction xs as [|x xs IH]; simpl; [done|]. by destruct (P x).
Qed.

Lemma get_edges_from_add es e (source : string) :
  get_edges_from (EdgeSet_add_edge es e) source =
  get_edges_from es source
  ++ (if String.eqb (source_node e) source then [e] else []).
Proof.
  unfold get_edges_from, EdgeSet_add_edge.
  rewrite List.filter_app. simpl.
  by destruct (String.eqb (source_node e) source).
Qed.

(** X16. Adding an edge changes routing only at the source of that edge:
    from any other source [get_next_node] answers as before. *)
Theorem get_next_node_other_source es e (source : string) state w :
  source_node e <> source ->
  get_next_node (EdgeSet_add_edge es e) source state w
  = get_next_node es source state w.
Proof.
  intros Hne. unfold get_next_node. rewrite get_edges_from_add.
  apply String.eqb_neq in Hne. by rewrite Hne, app_nil_r.
Qed.

(** X17. Edges are first-come, first-served within their kind: once
    routing from a source gives a node or raises, adding a static edge
    changes nothing there, and once the source has a conditional edge,
    adding any edge changes nothing there. *)
Theorem get_next_node_add_ignored es e (source : string) state w
    (r : result (option string)) (w' : W) :
  get_next_node es source state w = (r, w') ->
  (r <> Ok None /\ is_conditional e = false) \/
  (exists c, c ∈ es /\ source_node c = source /\ is_conditional c = true) ->
  get_next_node (EdgeSet_add_edge es e) source state w = (r, w').
Proof.
  intros Hnext Hcase.
  destruct (String.eqb (source_node e) source) eqn:Hsrc;
    [|apply String.eqb_neq in Hsrc;
      by rewrite get_next_node_other_source].
  revert Hnext. unfold get_next_node. rewrite get_edges_from_add, Hsrc.
  assert (Hcond : List.find is_conditional (get_edges_from es source) = None ->
                  r <> Ok None /\ is_conditional e = false).
  { intros Hnone. destruct Hcase as [?|(c & Hc & Hcs & Hcc)]; [done|].
    exfalso. eapply find_none in Hnone.
    - rewrite Hcc in Hnone. discriminate Hnone.
    - unfold get_edges_from. apply filter_In. split.
      + by apply list_elem_of_In.
      + by apply String.eqb_eq. }
  destruct (get_edges_from es source) as [|e0 l] eqn:Hfrom.
  - intros [= <- <-]. by destruct Hcond as [? _].
  - change ((e0 :: l) ++ [e]) with (e0 :: (l ++ [e])). cbv beta iota.
    rewrite (app_comm_cons l [e] e0), !find_app_split.
    destruct (List.find is_conditional (e0 :: l)) as [c|]; [done|].
    destruct Hcond as [Hr He]; [done|].
    simpl (List.find is_conditional [e]). rewrite He.
    destruct (List.find is_static_target (e0 :: l)) as [s|]; [done|].
    intros [= <- <-]. done.
Qed.

(** X18. When every conditional edge carries its condition, as every
    edge built by [Edge.__init__] does, [get_next_node] raises only what
    the condition of a conditional edge from the source raised: static
    routing never raises, and the error of [Edge.route] for an edge
    without target cannot come out of it. *)
Theorem get_next_node_raises es (source : string) state w (x : exn) (w' : W) :
  (forall e, e ∈ es -> is_conditional e = true -> is_Some (condition e)) ->
  get_next_node es source state w = (Exc x, w') ->
  exists e c, e ∈ es /\ source_node e = source /\
              condition e = Some c /\ c state w = (Exc x, w').
Proof.
  intros Hwf. unfold get_next_node.
  destruct (get_edges_from es source) as [|e0 l] eqn:Hfrom; [done|].
  destruct (List.find is_conditional (e0 :: l)) as [e|] eqn:Hfind.
  - apply find_some in Hfind as [Hin Hcond].
    rewrite <- Hfrom in Hin. unfold get_edges_from in Hin.
    apply filter_In in Hin as [Hin Hsrc].
    apply list_elem_of_In in Hin. apply String.eqb_eq in Hsrc.
    destruct (Hwf e Hin Hcond) as [c Hc].
    unfold route. rewrite Hc.
    destruct (c state w) as [[t|y] w1] eqn:Hcall; [done|].
    intros [= <- <-]. eauto 10.
  - by destruct (List.find is_static_target (e0 :: l)).
Qed.

(** Static routing answers with the target of an edge of the set. *)
Lemma get_next_node_static_target es (source : string) state w
    (n : string) (w' : W) :
  (forall e, e ∈ es -> is_conditional e = false) ->
  get_next_node es source state w = (Ok (Some n), w') ->
  exists e, e ∈ es /\ source_node e = source /\
            target_node e = Some n /\ str_truthy n = true.
Proof.
  intros Hstatic. unfold get_next_node.
  destruct (get_edges_from es source) as [|e0 l] eqn:Hfrom; [done|].
  assert (Hsub : forall e, In e (e0 :: l) -> e ∈ es /\ source_node e = source).
  { intros e Hin. rewrite <- Hfrom in Hin. unfold get_edges_from in Hin.
    apply filter_In in Hin as [Hin Hsrc].
    split; [by apply list_elem_of_In | by apply String.eqb_eq]. }
  destruct (List.find is_conditional (e0 :: l)) as [e|] eqn:Hfind.
  - apply find_some in Hfind as [Hin Hcond].
    destruct (Hsub e Hin) as [He _]. rewrite (Hstatic e He) in Hcond.
    discriminate Hcond.
  - destruct (List.find is_static_target (e0 :: l)) as [e|] eqn:Hfind';
      [|done].
    apply find_some in Hfind' as [Hin Htgt].
    destruct (Hsub e Hin) as [He Hsrc].
    intros [= Hn <-]. exists e. repeat split; try done.
    unfold is_static_target in Htgt. apply andb_true_iff in Htgt as [_ Htgt].
    by rewrite Hn in Htgt.
Qed.

(** X11. On a network that validates and has static edges only,
    [execute] never leaves the graph: every node the traversal moves to
    is [START], [END] or a registered node. *)
Theorem execute_stays_in_graph net (initial_state : StateDict)
    (max_iterations : Z) w :
  validate net = Ok true ->
  (forall e, e ∈ edges net -> is_conditional e = false) ->
  Forall (known_node net)
         (visited (execute_run net initial_state max_iterations w).1.1).
Proof.
  intros Hvalid Hstatic. apply validate_Ok_iff in Hvalid
    as (Hentry & _ & Hedges).
  unfold execute_run.
  destruct (execute_loop _ _ _ _) as [[l h] w'] eqn:Hloop. simpl.
  apply (execute_loop_invariant W net
           (fun l => Forall (known_node net) (visited l))) in Hloop;
    [done | done | | | ].
  - intros l0 n w0 w1 HP Hnext. simpl. apply Forall_app. split; [done|].
    constructor; [|constructor].
    apply get_next_node_static_target in Hnext
      as (e & He & _ & Htgt & Htruthy); [|done].
    destruct (Hedges e He) as [_ Hok].
    apply Hok in Htgt; [|done]. apply dangling_false in Htgt.
    unfold known_node. tauto.
  - intros l0 w0 l1 oe w1 HP _ _ Hstep.
    apply execute_node_cases in Hstep
      as [(_ & -> & _)|(node & r & _ & _ & _ & _ & _ & -> & _)]; done.
  - simpl. constructor; [|constructor].
    apply dangling_false in Hentry. unfold known_node. tauto.
Qed.

End RoutingMore.

Section NetworkStateProperties.

Lemma recorded_snoc (ops : list ns_op) (op : ns_op) :
  recorded (ops ++ [op]) =
  recorded ops ++ match op with OpRecord n => [n] | OpUpdate _ => [] end.
Proof. unfold recorded. rewrite omap_app. by destruct op. Qed.

(** X19. A [NetworkState] that starts fresh and is used through [update]
    and [record_execution] only keeps its books: [history] is the list of
    recorded node ids in order, [current_node] is the last of them (empty
    before the first), the state data is the updates merged in order, and
    [metadata] stays empty. *)
Theorem NetworkState_bookkeeping (ops : list ns_op) :
  let s := foldl apply_op NetworkState_init ops in
  history s = recorded ops /\
  ns_current_node s = default "" (last (recorded ops)) /\
  NetworkState_to_dict s = merged ops /\
  metadata s = ∅.
Proof.
  induction ops as [|op ops IH] using rev_ind; [done|].
  simpl. unfold merged in *. rewrite !foldl_app, recorded_snoc. simpl in *.
  destruct IH as (Hh & Hc & Hd & Hm).
  destruct op as [u|n]; simpl.
  - rewrite app_nil_r. unfold NetworkState_to_dict in *. simpl.
    by rewrite Hd.
  - rewrite last_snoc, Hh. by repeat split.
Qed.

End NetworkStateProperties.

(** * The further properties on concrete networks *)

Lemma execute_completed_iff_witness :
  error (execute (linear unit) ∅ 100 tt).1 = None /\
  last (visited (execute_run (linear unit) ∅ 100 tt).1.1) = Some END.
Proof.
  destruct (execute_completed_iff unit (linear unit) ∅ 100 tt) as [_ Hdone].
  apply Hdone. vm_compute. reflexivity.
Defined.

Lemma execute_budget_stable_witness :
  execute (linear unit) ∅ 100 tt = execute (linear unit) ∅ 5 tt.
Proof.
  apply (execute_budget_stable unit (linear unit) ∅ 5 100 tt).
  - vm_compute. discriminate.
  - lia.
Defined.

Lemma execute_stream_agree_witness :
  stream_state (stream (Cases.pipeline unit) ∅ 100 tt).1
    = final_state (execute (Cases.pipeline unit) ∅ 100 tt).1 /\
  last (items (stream (Cases.pipeline unit) ∅ 100 tt).1)
    = Some (END, final_state (execute (Cases.pipeline unit) ∅ 100 tt).1).
Proof.
  destruct (execute_stream_agree unit (Cases.pipeline unit) ∅ 100 tt)
    as (Hstate & _ & Hlast); [vm_compute; reflexivity|].
  split; [exact Hstate|]. apply Hlast. vm_compute. reflexivity.
Defined.

Lemma stream_exit_item_last_witness :
  stream_halt (stream (failing unit) ∅ 100 tt).1 = ReachedExit.
Proof.
  destruct (stream_exit_item_last unit (failing unit) ∅ 100 tt
              [(START, {["next_node" := VStr "a"]});
               ("a", {["error" := VStr "boom"]});
               ("b", {["b" := VInt 1]})]
              [] (END, {["b" := VInt 1]}))
    as (_ & _ & Hhalt);
    [vm_compute; reflexivity | reflexivity | exact Hhalt].
Defined.

Lemma execute_stays_in_graph_witness :
  Forall (known_node (Cases.pipeline unit))
         (visited (execute_run (Cases.pipeline unit) ∅ 100 tt).1.1).
Proof.
  apply (execute_stays_in_graph unit (Cases.pipeline unit) ∅ 100 tt).
  - vm_compute. reflexivity.
  - intros e Hin. apply list_elem_of_In in Hin. simpl in Hin.
    destruct Hin as [<-|[<-|[<-|[]]]]; reflexivity.
Defined.

Lemma validate_add_node_witness :
  validate (add_node (linear unit) "z" (returns unit VNone)) = Ok true.
Proof.
  apply (validate_add_node unit (linear unit) "z" (returns unit VNone)).
  vm_compute. reflexivity.
Defined.

Lemma validate_set_points_witness :
  validate (set_entry_point (linear unit) "a") = Ok true /\
  validate (set_finish_point (linear unit) "ghost")
    = Exc (ValueError "Exit point ghost not found").
Proof.
  split.
  - destruct (validate_set_points unit (linear unit) "a") as [Hentry _];
      [vm_compute; reflexivity|].
    rewrite Hentry. vm_compute. reflexivity.
  - destruct (validate_set_points unit (linear unit) "ghost") as [_ Hexit];
      [vm_compute; reflexivity|].
    rewrite Hexit. vm_compute. reflexivity.
Defined.

Lemma get_next_node_other_source_witness :
  get_next_node
    (EdgeSet_add_edge (two_static unit) (Edge_init "z" (Some "q") None))
    "a" ∅ tt
  = get_next_node (two_static unit) "a" ∅ tt.
Proof.
  apply (get_next_node_other_source unit (two_static unit)
           (Edge_init "z" (Some "q") None) "a" ∅ tt).
  discriminate.
Defined.

Lemma get_next_node_add_ignored_witness :
  get_next_node
    (EdgeSet_add_edge (two_static unit) (Edge_init "a" (Some "c") None))
    "a" ∅ tt = (Ok (Some "b"), tt) /\
  get_next_node
    (EdgeSet_add_edge (mixed unit)
       (Edge_init "a" None (Some (answers unit "e"))))
    "a" ∅ tt = (Ok (Some "c"), tt).
Proof.
  split.
  - apply (get_next_node_add_ignored unit (two_static unit)
             (Edge_init "a" (Some "c") None) "a" ∅ tt);
      [reflexivity|].
    left. split; [discriminate | reflexivity].
  - apply (get_next_node_add_ignored unit (mixed unit)
             (Edge_init "a" None (Some (answers unit "e"))) "a" ∅ tt);
      [reflexivity|].
    right. exists (Edge_init "a" None (Some (answers unit "c"))).
    split; [right; left | split; reflexivity].
Defined.

Lemma get_next_node_raises_witness :
  exists e c,
    e ∈ Cases.raising_route unit /\ source_node e = "a" /\
    condition e = Some c /\
    c ∅ tt = (Exc (mkExn "KeyError" "kind"), tt).
Proof.
  apply (get_next_node_raises unit (Cases.raising_route unit) "a" ∅ tt
           (mkExn "KeyError" "kind") tt).
  - intros e Hin Hcond. apply list_elem_of_In in Hin. simpl in Hin.
    destruct Hin as [<-|[<-|[]]]; [discriminate Hcond | simpl; eauto].
  - reflexivity.
Defined.
